(** * GKArray: the Greenwald-Khanna quantile sketch of [gkarray/gkarray.py]

    A shallow embedding of the Python class [GKArray] and of its helper
    class [Entry], with the properties of its operations.

    Numbers.  Python floats are modelled by exact rationals [Q]; the two
    infinities that initialise [_min] and [_max] are added in [ext], and
    the not-a-number value returned by the queries in [number].  Rounding
    of floating-point arithmetic is therefore not part of the model:
    [np.floor] is [Qfloor] and [int] is truncation towards zero, and the
    products, quotients and sums of lines 53, 54, 60, 70, 136, 169, 173
    and 174, and their like in [quantiles], are exact where the code
    rounds them.  The general properties below do not depend on their
    values: they are stated for whatever threshold the sweep is run with
    and whatever bound the scan is run with, or take of a rounded value
    only an inequality that rounding keeps (the threshold below the
    sketching size, the order of two ranks); of the sum and the mean
    they say only that a call leaves them as they are.  Values are
    computed only on small inputs, where nothing rounds.  Counts
    ([_n]) are natural numbers, the rank fields [g] and [delta] are Python
    integers ([Z]).  The percentile routine of numpy, which [quantile]
    calls below the sketching size, is a parameter of the queries.

    Effects.  Every method mutates [self] in place and may raise; a method
    is a function from the state before the call to an [outcome] and the
    state after the call, which is the state the object is left in also
    when the call raises.  [merge] works on the pair [(self, other)].

    Contents.  The definitions come first: numbers, the method monad, the
    data model, the methods in the order of the source, the predicates on
    sketches and the sample sketches.  The facts follow: on the sweep of
    [merge_compress] (it keeps the rank mass and the order), on the buffer
    (a compaction of a non-empty buffer raises, so nothing ever leaves
    it), on the scan of [quantile], and then on each operation.  The last
    part gives further properties of the operations: what a compaction
    does to the entries, the state after a stream, the outcomes of
    [add], [merge] and [quantile], and the answers of a batch. *)

From Stdlib Require Import List ZArith QArith Qround Bool Lia Sorted.
Import ListNotations.

Open Scope Z_scope.

(** ** Numbers *)

Module Num.

(** A float that is not NaN: a rational or one of the infinities. *)
Inductive ext : Type :=
| NegInf
| Fin (q : Q)
| PosInf.

(** The result of a query: a float, possibly NaN. *)
Inductive number : Type :=
| NaN
| Num (x : ext).

Definition Qltb (x y : Q) : bool :=
  match (x ?= y)%Q with Lt => true | _ => false end.

Definition Qleb (x y : Q) : bool := negb (Qltb y x).

(** [x < y] on floats without NaN. *)
Definition ltb (x y : ext) : bool :=
  match x, y with
  | NegInf, NegInf => false
  | NegInf, _ => true
  | Fin _, NegInf => false
  | Fin a, Fin b => Qltb a b
  | Fin _, PosInf => true
  | PosInf, _ => false
  end.

Definition leb (x y : ext) : bool := negb (ltb y x).

Definition le (x y : ext) : Prop := leb x y = true.

(** [x <= y] on floats: false as soon as one side is NaN. *)
Definition number_leb (x y : number) : bool :=
  match x, y with
  | Num a, Num b => leb a b
  | _, _ => false
  end.

(** Python's [min(a, b)] and [max(a, b)]: the first argument wins ties. *)
Definition py_min (a b : ext) : ext := if ltb b a then b else a.
Definition py_max (a b : ext) : ext := if ltb a b then b else a.
Definition Qpy_max (a b : Q) : Q := if Qltb a b then b else a.

(** Python's [int(x)] on a float: truncation towards zero. *)
Definition py_int (x : Q) : Z := Z.quot (Qnum x) (Zpos (Qden x)).

(** [np.floor]. *)
Definition np_floor (x : Q) : Z := Qfloor x.

End Num.

Import Num.

(** ** Exceptions and the method monad *)

Inductive exn : Type :=
| AttributeError            (* attribute access on an object without it *)
| IndexError                (* list index out of range *)
| ZeroDivisionError
| UnequalEpsilonException.  (* the class of line 4 *)

Inductive outcome (A : Type) : Type :=
| Ok (a : A)
| Raise (e : exn).

Arguments Ok {A} a.
Arguments Raise {A} e.

(** A method over a mutable state [S]: the outcome and the state left. *)
Definition M (S A : Type) : Type := S -> outcome A * S.

Definition ret {S A : Type} (a : A) : M S A := fun s => (Ok a, s).

Definition raise {S A : Type} (e : exn) : M S A := fun s => (Raise e, s).

Definition bind {S A B : Type} (m : M S A) (k : A -> M S B) : M S B :=
  fun s =>
    match m s with
    | (Ok a, s') => k a s'
    | (Raise e, s') => (Raise e, s')
    end.

Definition get {S : Type} : M S S := fun s => (Ok s, s).

Definition modify {S : Type} (f : S -> S) : M S unit := fun s => (Ok tt, f s).

Definition lift {S A : Type} (o : outcome A) : M S A := fun s => (o, s).

Definition when {S : Type} (b : bool) (m : M S unit) : M S unit :=
  if b then m else ret tt.

Declare Scope method_scope.
Delimit Scope method_scope with method.
Notation "x <- m ;; k" := (bind m (fun x => k))
  (at level 61, m at next level, right associativity) : method_scope.
Notation "m ;; k" := (bind m (fun _ => k))
  (at level 61, right associativity) : method_scope.

Fixpoint mapM {S A B : Type} (f : A -> M S B) (l : list A) : M S (list B) :=
  match l with
  | [] => ret []
  | a :: l' => (b <- f a ;; bs <- mapM f l' ;; ret (b :: bs))%method
  end.

(** Float division and integer modulo, which raise on a zero divisor. *)
Definition py_div (a b : Q) : outcome Q :=
  if Qeq_bool b 0 then Raise ZeroDivisionError else Ok (a / b)%Q.

Definition py_mod (a b : Z) : outcome Z :=
  if b =? 0 then Raise ZeroDivisionError else Ok (a mod b).

(** [l[i]] for a non-negative index. *)
Definition py_index {A : Type} (l : list A) (i : nat) : outcome A :=
  match nth_error l i with
  | Some a => Ok a
  | None => Raise IndexError
  end.

(** ** The data model *)

(** [class Entry]: fields [val], [g], [delta]. *)
Record Entry : Type := mkEntry { val : ext; g : Z; delta : Z }.

(** An element of the working list of [merge_compress]: a raw value of the
    [incoming] buffer, or an [Entry] object. *)
Inductive pyobj : Type :=
| Raw (v : Q)
| Obj (e : Entry).

(** [class GKArray]: the fields set by [__init__]. *)
Record GKArray : Type := mkGKArray {
  eps : Q;
  entries : list Entry;
  incoming : list Q;
  _min : ext;
  _max : ext;
  _n : nat;
  _sum : Q;
  _avg : Q
}.

Definition set_eps (x : Q) (s : GKArray) : GKArray :=
  mkGKArray x (entries s) (incoming s) (_min s) (_max s) (_n s) (_sum s) (_avg s).
Definition set_entries (x : list Entry) (s : GKArray) : GKArray :=
  mkGKArray (eps s) x (incoming s) (_min s) (_max s) (_n s) (_sum s) (_avg s).
Definition set_incoming (x : list Q) (s : GKArray) : GKArray :=
  mkGKArray (eps s) (entries s) x (_min s) (_max s) (_n s) (_sum s) (_avg s).
Definition set_min (x : ext) (s : GKArray) : GKArray :=
  mkGKArray (eps s) (entries s) (incoming s) x (_max s) (_n s) (_sum s) (_avg s).
Definition set_max (x : ext) (s : GKArray) : GKArray :=
  mkGKArray (eps s) (entries s) (incoming s) (_min s) x (_n s) (_sum s) (_avg s).
Definition set_n (x : nat) (s : GKArray) : GKArray :=
  mkGKArray (eps s) (entries s) (incoming s) (_min s) (_max s) x (_sum s) (_avg s).
Definition set_sum (x : Q) (s : GKArray) : GKArray :=
  mkGKArray (eps s) (entries s) (incoming s) (_min s) (_max s) (_n s) x (_avg s).
Definition set_avg (x : Q) (s : GKArray) : GKArray :=
  mkGKArray (eps s) (entries s) (incoming s) (_min s) (_max s) (_n s) (_sum s) x.

(** [GKArray.__init__(eps)]. *)
Definition init (eps0 : Q) : GKArray :=
  mkGKArray eps0 [] [] PosInf NegInf 0%nat 0%Q 0%Q.

(** [self._n] as a float or an integer. *)
Definition count (s : GKArray) : Z := Z.of_nat (_n s).
Definition countQ (s : GKArray) : Q := inject_Z (count s).

Definition num_values (s : GKArray) : nat := _n s.
Definition avg (s : GKArray) : Q := _avg s.
Definition sum (s : GKArray) : Q := _sum s.

(** ** merge_compress *)

(** [Entry(e.val, e.g, e.delta)]. *)
Definition copy (e : Entry) : Entry := mkEntry (val e) (g e) (delta e).

(** [sorted(l, key=lambda x: x.val)].  The key [x.val] is taken of every
    element before anything is ordered: an [Entry] has the attribute, a
    float has not, so one raw value makes the call raise.  Entries are then
    put in ascending order of [val], equal keys keeping their order. *)
Fixpoint insert_by_val (e : Entry) (l : list Entry) : list Entry :=
  match l with
  | [] => [e]
  | x :: l' => if ltb (val x) (val e) then x :: insert_by_val e l' else e :: l
  end.

Fixpoint sorted_by_val (l : list pyobj) : outcome (list Entry) :=
  match l with
  | [] => Ok []
  | Raw _ :: _ => Raise AttributeError
  | Obj e :: l' =>
      match sorted_by_val l' with
      | Ok r => Ok (insert_by_val e r)
      | Raise ex => Raise ex
      end
  end.

(** The sorted list of a list of entries. *)
Definition isort (l : list Entry) : list Entry := fold_right insert_by_val [] l.

(** [right.g += left.g]. *)
Definition absorb (left right : Entry) : Entry :=
  mkEntry (val right) (g right + g left) (delta right).

(** The test of lines 80, 88 and 102 on two neighbours of one list, and
    the test of line 94 on an incoming entry and the current entry. *)
Definition removable (threshold : Z) (left right : Entry) : bool :=
  g left + g right + delta right <=? threshold.

(** The test and the two branches of lines 79-84, repeated at lines 87-92
    and 101-106: the element at the cursor of [l], its head, is absorbed
    by its successor or appended to [merged], and the cursor moves on.
    Returns what is left of [l] and the list built. *)
Definition drop_or_keep (threshold : Z) (l merged : list Entry)
  : list Entry * list Entry :=
  match l with
  | e :: e' :: rest =>
      if removable threshold e e'
      then (absorb e e' :: rest, merged)
      else (e' :: rest, merged ++ [e])
  | [e] => ([], merged ++ [e])
  | [] => ([], merged)
  end.

(** The loop of lines 76-106, one iteration for each unit of [fuel]: [inc]
    is [incoming[i:]] and [ent] is [self.entries[j:]], both with the
    updates of [g] made so far, and [merged] is the list built.  Every
    iteration moves one of the two cursors, so the loop ends within
    [len(incoming) + len(self.entries)] iterations. *)
Fixpoint sweep_loop (fuel : nat) (threshold : Z) (inc ent merged : list Entry)
  : list Entry :=
  match fuel with
  | O => merged
  | S fuel' =>
      match inc, ent with
      | [], [] => merged
      | [], _ :: _ =>
          (* line 77: done with incoming *)
          let (ent1, merged1) := drop_or_keep threshold ent merged in
          sweep_loop fuel' threshold inc ent1 merged1
      | _ :: _, [] =>
          (* line 85: done with entries *)
          let (inc1, merged1) := drop_or_keep threshold inc merged in
          sweep_loop fuel' threshold inc1 ent merged1
      | x :: inc', e :: ent' =>
          if ltb (val x) (val e) then
            (* line 93 *)
            if removable threshold x e
            then sweep_loop fuel' threshold inc' (absorb x e :: ent') merged
            else sweep_loop fuel' threshold inc' ent
                   (merged ++ [mkEntry (val x) (g x) (g e + delta e - g x)])
          else
            (* line 100 *)
            let (ent1, merged1) := drop_or_keep threshold ent merged in
            sweep_loop fuel' threshold inc ent1 merged1
      end
  end.

(** The list the loop builds, by recursion on the two lists, for the
    proofs: [compress_tail] is the loop once one list is used up, with [e]
    the element at the cursor and [rest] those behind it; [sweep] is the
    loop with [incoming[i:] = inc] and [self.entries[j:] = e :: ent]. *)
Fixpoint compress_tail (threshold : Z) (e : Entry) (rest : list Entry)
  : list Entry :=
  match rest with
  | [] => [e]
  | e' :: rest' =>
      if removable threshold e e'
      then compress_tail threshold (absorb e e') rest'
      else e :: compress_tail threshold e' rest'
  end.

Fixpoint sweep (threshold : Z) (inc : list Entry) : Entry -> list Entry -> list Entry :=
  match inc with
  | [] => compress_tail threshold
  | x :: inc' =>
      fix against (e : Entry) (ent : list Entry) {struct ent} : list Entry :=
        if ltb (val x) (val e) then
          (* line 93: the incoming entry comes first *)
          if removable threshold x e
          then sweep threshold inc' (absorb x e) ent
          else mkEntry (val x) (g x) (g e + delta e - g x)
                 :: sweep threshold inc' e ent
        else
          (* line 100: the current entry comes first *)
          match ent with
          | [] => e :: compress_tail threshold x inc'
          | e' :: ent' =>
              if removable threshold e e'
              then against (absorb e e') ent'
              else e :: against e' ent'
          end
  end.

Definition merge_lists (threshold : Z) (inc ent : list Entry) : list Entry :=
  match ent with
  | e :: ent' => sweep threshold inc e ent'
  | [] =>
      match inc with
      | [] => []
      | x :: inc' => compress_tail threshold x inc'
      end
  end.

Definition removal_threshold (s : GKArray) : Z :=
  np_floor (2 * eps s * inject_Z (count s - 1)).

(** [GKArray.merge_compress(entries)]. *)
Definition merge_compress (extra : list Entry) : M GKArray unit :=
  (s <- get ;;
   let threshold := removal_threshold s in
   let combined := map Raw (incoming s) ++ map (fun e => Obj (copy e)) extra in
   inc <- lift (sorted_by_val combined) ;;
   let fuel := (length inc + length (entries s))%nat in
   modify (set_entries (sweep_loop fuel threshold inc (entries s) [])) ;;
   modify (set_incoming []))%method.

(** ** size and add *)

(** [GKArray.size()]. *)
Definition size : M GKArray nat :=
  (s <- get ;;
   when (0 <? length (incoming s))%nat (merge_compress []) ;;
   s <- get ;;
   ret (length (entries s)))%method.

(** Lines 52-59 of [add]: the running aggregates and the buffer. *)
Definition add_aggregates (v : Q) (s : GKArray) : GKArray :=
  let s := set_n (_n s + 1)%nat s in
  let s := set_sum (_sum s + v)%Q s in
  let s := set_avg (_avg s + (v - _avg s) * (1 / countQ s))%Q s in
  let s := set_incoming (incoming s ++ [v]) s in
  let s := if ltb (Fin v) (_min s) then set_min (Fin v) s else s in
  let s := if ltb (_max s) (Fin v) then set_max (Fin v) s else s in
  s.

(** [int(1.0/self.eps) + 1], the number of values between two compactions. *)
Definition period (s : GKArray) : outcome Z :=
  match py_div 1 (eps s) with
  | Ok r => Ok (py_int r + 1)
  | Raise e => Raise e
  end.

(** [GKArray.add(val)]. *)
Definition add (v : Q) : M GKArray unit :=
  (modify (add_aggregates v) ;;
   s <- get ;;
   k <- lift (period s) ;;
   r <- lift (py_mod (count s) k) ;;
   when (r =? 0) (merge_compress []))%method.

(** ** merge *)

(** Lines 135-147: the entries that stand for [other] in [self]. *)
Fixpoint interior_entries (ents : list Entry) : list Entry :=
  match ents with
  | e :: ((e' :: _) as rest) =>
      let g0 := g e' + delta e' - delta e in
      (if 0 <? g0 then [mkEntry (val e) g0 0] else []) ++ interior_entries rest
  | _ => []
  end.

Definition synthetic_entries (spread : Z) (other : GKArray)
  : outcome (list Entry) :=
  match py_index (entries other) 0 with
  | Raise e => Raise e
  | Ok first =>
      let g0 := g first + delta first - spread - 1 in
      let head := if 0 <? g0 then [mkEntry (_min other) g0 0] else [] in
      let middle := interior_entries (entries other) in
      match py_index (entries other) (length (entries other) - 1) with
      | Raise e => Raise e
      | Ok last =>
          let g1 := spread + 1 - delta last in
          Ok (head ++ middle ++
              (if 0 <? g1 then [mkEntry (val last) g1 0] else []))
      end
  end.

(** A method of one of the two objects of a call [self.merge(other)]. *)
Definition on_self {A : Type} (m : M GKArray A) : M (GKArray * GKArray) A :=
  fun so => let (r, self') := m (fst so) in (r, (self', snd so)).

Definition on_other {A : Type} (m : M GKArray A) : M (GKArray * GKArray) A :=
  fun so => let (r, other') := m (snd so) in (r, (fst so, other')).

(** Lines 127-132: [self] takes the entries and aggregates of [other]. *)
Definition take_over (other self : GKArray) : GKArray :=
  let s := set_entries (map copy (entries other)) self in
  let s := set_min (_min other) s in
  let s := set_max (_max other) s in
  let s := set_n (_n other) s in
  let s := set_sum (_sum other) s in
  let s := set_avg (_avg other) s in
  s.

(** Lines 149-152. *)
Definition widen (other self : GKArray) : GKArray :=
  let s := set_n (_n self + _n other)%nat self in
  let s := set_eps (Qpy_max (eps s) (eps other)) s in
  let s := set_min (py_min (_min s) (_min other)) s in
  let s := set_max (py_max (_max s) (_max other)) s in
  s.

(** [self.merge(other)] for two distinct objects; the state is the pair
    [(self, other)]. *)
Definition merge : M (GKArray * GKArray) unit :=
  (so <- get ;;
   if negb (Qeq_bool (eps (fst so)) (eps (snd so))) then
     raise UnequalEpsilonException
   else if (_n (snd so) =? 0)%nat then
     on_self (merge_compress [])
   else if (_n (fst so) =? 0)%nat then
     on_other (merge_compress []) ;;
     so <- get ;;
     on_self (modify (take_over (snd so)))
   else
     let spread := py_int (eps (snd so) * inject_Z (count (snd so) - 1)) in
     on_other (merge_compress []) ;;
     so <- get ;;
     extra <- lift (synthetic_entries spread (snd so)) ;;
     on_self (modify (widen (snd so))) ;;
     on_self (merge_compress extra))%method.

(** [self.merge(self)]: both names denote one object, so the compaction of
    [other] is a compaction of [self] and line 149 doubles the count. *)
Definition merge_same : M GKArray unit :=
  (s <- get ;;
   if negb (Qeq_bool (eps s) (eps s)) then
     raise UnequalEpsilonException
   else if (_n s =? 0)%nat then
     merge_compress []
   else
     let spread := py_int (eps s * inject_Z (count s - 1)) in
     merge_compress [] ;;
     s <- get ;;
     extra <- lift (synthetic_entries spread s) ;;
     modify (fun s => widen s s) ;;
     merge_compress extra)%method.

(** ** quantile and quantiles *)

Definition out_of_range (q : Q) : bool := Qltb q 0 || Qltb 1 q.

(** [int(q*(self._n - 1) + 1)] and [int(self.eps*(self._n - 1))]. *)
Definition rank (s : GKArray) (q : Q) : Z :=
  py_int (q * inject_Z (count s - 1) + 1).

Definition spread_of (s : GKArray) : Z :=
  py_int (eps s * inject_Z (count s - 1)).

(** The loop of lines 177-181: the value of [i] when it ends, for entries
    [ents] still to visit and [g_sum] accumulated before them. *)
Fixpoint scan_index (bound g_sum : Z) (ents : list Entry) : nat :=
  match ents with
  | [] => 0
  | e :: rest =>
      let g_sum := g_sum + g e in
      if bound <? g_sum + delta e - 1 then 0%nat
      else S (scan_index bound g_sum rest)
  end.

(** [sorted(q_values)] and [q_values != sorted(q_values)]. *)
Fixpoint insert_q (q : Q) (l : list Q) : list Q :=
  match l with
  | [] => [q]
  | x :: l' => if Qltb x q then x :: insert_q q l' else q :: l
  end.

Definition sorted_q (l : list Q) : list Q := fold_right insert_q [] l.

Fixpoint list_Qeqb (l1 l2 : list Q) : bool :=
  match l1, l2 with
  | [], [] => true
  | x :: l1', y :: l2' => Qeq_bool x y && list_Qeqb l1' l2'
  | _, _ => false
  end.

(** The inner loop of lines 215-223 at entry [i]: [level] is
    [g_sum + self.entries[i].delta - 1] and [prev] is
    [self._min if i == 0 else self.entries[i-1].val].  Returns the answers
    appended and the quantiles left, [q_values[j:]]. *)
Fixpoint answer_at (s : GKArray) (level : Z) (prev : ext) (qs : list Q)
  : list number * list Q :=
  match qs with
  | [] => ([], [])
  | q :: qs' =>
      if out_of_range q then
        let (out, left) := answer_at s level prev qs' in (NaN :: out, left)
      else if rank s q + spread_of s <? level then
        let (out, left) := answer_at s level prev qs' in (Num prev :: out, left)
      else ([], qs)
  end.

(** The loops of lines 213-230, with [self.entries[i:] = ents] and
    [q_values[j:] = qs]. *)
Fixpoint coscan (s : GKArray) (prev : ext) (g_sum : Z) (ents : list Entry)
  (qs : list Q) : list number :=
  match ents, qs with
  | e :: rest, _ :: _ =>
      let g_sum := g_sum + g e in
      let (out, left) := answer_at s (g_sum + delta e - 1) prev qs in
      out ++ coscan s (val e) g_sum rest left
  | _, _ =>
      map (fun q => if out_of_range q then NaN else Num (_max s)) qs
  end.

Section Queries.

(** [np.percentile(values, p)], the routine of numpy used below the
    sketching size; it is not part of this repository and is left
    unspecified. *)
Variable percentile : list ext -> Q -> outcome number.

(** [GKArray.quantile(q)]. *)
Definition quantile (q : Q) : M GKArray number :=
  (s <- get ;;
   if out_of_range q || (_n s =? 0)%nat then ret NaN
   else
     when (0 <? length (incoming s))%nat (merge_compress []) ;;
     s <- get ;;
     limit <- lift (py_div 1 (eps s)) ;;
     if Qltb (countQ s) limit then
       lift (percentile (map val (entries s)) (q * 100))
     else
       let i := scan_index (rank s q + spread_of s) 0 (entries s) in
       if (i =? 0)%nat then ret (Num (_min s))
       else
         e <- lift (py_index (entries s) (i - 1)) ;;
         ret (Num (val e)))%method.

(** [GKArray.quantiles(q_values)]. *)
Definition quantiles (q_values : list Q) : M GKArray (list number) :=
  (s <- get ;;
   if (_n s =? 0)%nat then ret (map (fun _ => NaN) q_values)
   else
     when (0 <? length (incoming s))%nat (merge_compress []) ;;
     s <- get ;;
     limit <- lift (py_div 1 (eps s)) ;;
     if Qltb (countQ s) limit then
       let values := map val (entries s) in
       mapM (fun q => if Qleb 0 q && Qleb q 1
                      then lift (percentile values (q * 100))
                      else ret NaN) q_values
     else if negb (list_Qeqb q_values (sorted_q q_values)) then
       mapM quantile q_values
     else
       ret (coscan s (_min s) 0 (entries s) q_values))%method.

End Queries.

(** ** States of the sketch *)

(** The total rank mass of a list of entries, [sum(e.g for e in l)]. *)
Definition sum_g (l : list Entry) : Z := fold_right (fun e acc => g e + acc) 0 l.

(** Entries in ascending order of [val], none below [low]. *)
Fixpoint ascending_from (low : ext) (l : list Entry) : bool :=
  match l with
  | [] => true
  | e :: rest => leb low (val e) && ascending_from (val e) rest
  end.

Definition ascending (l : list Entry) : bool := ascending_from NegInf l.

(** The state right after a full compaction. *)
Definition compacted (s : GKArray) : Prop :=
  sum_g (entries s) = count s /\ incoming s = [] /\ ascending (entries s) = true.

(** The invariant of section 3 of the specification: the entries and the
    buffer account together for every value, and the entries are in order. *)
Definition accounted (s : GKArray) : Prop :=
  sum_g (entries s) + Z.of_nat (length (incoming s)) = count s /\
  ascending (entries s) = true.

(** What every sketch built through the interface looks like: nothing
    ever leaves the buffer. *)
Definition buffered (s : GKArray) : Prop :=
  entries s = [] /\ length (incoming s) = _n s.

(** The state of a sketch after the values of [vs] were passed to [add],
    one call each. *)
Definition ingest (vs : list Q) (s : GKArray) : GKArray :=
  fold_left (fun s v => snd (add v s)) vs s.

(** The compaction of [add] was due: line 60. *)
Definition due (s : GKArray) : Prop :=
  exists k, period s = Ok k /\ count s mod k = 0.

Section Reachable.

Variable percentile : list ext -> Q -> outcome number.

(** The states a sketch can be in: created by [__init__] and then passed
    to the methods of the interface, as [self] or as the argument of
    [merge]; a call that raises leaves the state it had reached. *)
Inductive reachable : GKArray -> Prop :=
| reach_init (e : Q) : reachable (init e)
| reach_add (s : GKArray) (v : Q) :
    reachable s -> reachable (snd (add v s))
| reach_size (s : GKArray) :
    reachable s -> reachable (snd (size s))
| reach_quantile (s : GKArray) (q : Q) :
    reachable s -> reachable (snd (quantile percentile q s))
| reach_quantiles (s : GKArray) (qs : list Q) :
    reachable s -> reachable (snd (quantiles percentile qs s))
| reach_merge_self (s o : GKArray) :
    reachable s -> reachable o -> reachable (fst (snd (merge (s, o))))
| reach_merge_other (s o : GKArray) :
    reachable s -> reachable o -> reachable (snd (snd (merge (s, o))))
| reach_merge_same (s : GKArray) :
    reachable s -> reachable (snd (merge_same s)).

End Reachable.

(** ** The answer of the scan *)

(** [self._min if i == 0 else self.entries[i-1].val], for [i] up to the
    number of entries: the answer of [quantile] when its loop ends at [i],
    and the answer of [quantiles] at entry [i]. *)
Fixpoint picked (low : ext) (ents : list Entry) (i : nat) {struct i} : ext :=
  match i, ents with
  | S k, e :: rest => picked (val e) rest k
  | _, _ => low
  end.



(** ** An instance of the percentile routine *)

Fixpoint insert_ext (x : ext) (l : list ext) : list ext :=
  match l with
  | [] => [x]
  | y :: l' => if ltb y x then y :: insert_ext x l' else x :: l
  end.

(** The percentile of numpy with its default linear interpolation, in
    exact arithmetic: the routine is not part of this repository, and the
    properties below hold for any routine; this one stands for it where a
    closed term is needed.  Between two values of which one is infinite
    the interpolation is not a number. *)
Definition linear_percentile (values : list ext) (p : Q) : outcome number :=
  match fold_right insert_ext [] values with
  | [] => Raise IndexError
  | (first :: _) as sorted =>
      let h := (inject_Z (Z.of_nat (length sorted) - 1) * (p / 100))%Q in
      let lo := Z.to_nat (Qfloor h) in
      let a := nth lo sorted first in
      let b := nth (S lo) sorted a in
      let t := (h - inject_Z (Qfloor h))%Q in
      Ok (if Qeq_bool t 0 then Num a
          else match a, b with
               | Fin x, Fin y => Num (Fin (x + (y - x) * t))
               | _, _ => NaN
               end)
  end.

(** ** Sample sketches *)

Definition half : Q := 1 # 2.

(** [GKArray(0.5)] after [add(1.0)] and [add(2.0)]. *)
Definition two_values : GKArray := ingest [1%Q; 2%Q] (init half).

(** A sketch of precision 0.5 whose buffer is empty and whose entries
    stand for the values [vs] in ascending order, each with [g = 1];
    [lo] and [hi] are its extremes and [total] the sum of its values. *)
Definition settled (vs : list Q) (lo hi total : Q) : GKArray :=
  mkGKArray half (map (fun v => mkEntry (Fin v) 1 0) vs) []
            (Fin lo) (Fin hi) (length vs) total (total / inject_Z (Z.of_nat (length vs))).

(** [self.entries[len(self.entries) - 1].delta] for the entries [e :: rest]. *)
Fixpoint last_delta (e : Entry) (rest : list Entry) : Z :=
  match rest with
  | [] => delta e
  | e' :: rest' => last_delta e' rest'
  end.

(** Two sketches of precision 0.5 with empty buffers: one of the single
    value 1000, and one of the three values 0, 7 and 26 in which the entry
    of 7 was absorbed by the entry of 26. *)
Definition one_value : GKArray := settled [1000%Q] 1000 1000 1000.

Definition three_values : GKArray :=
  mkGKArray half [mkEntry (Fin 0) 1 0; mkEntry (Fin 26) 2 0] []
            (Fin 0) (Fin 26) 3 33 11.

(** ** The compaction of section 4.2 of the specification *)

(** "each raw value wrapped as an Entry with g=1, delta=0". *)
Definition wrap (v : Q) : Entry := mkEntry (Fin v) 1 0.

(** The compaction as the specification words it: the candidates are the
    wrapped values of the buffer and the extra entries, sorted by value;
    they are swept against the entries, and the buffer is cleared.  It
    differs from [merge_compress] in the wrapping only. *)
Definition merge_compress_as_specified (extra : list Entry) : M GKArray unit :=
  (s <- get ;;
   let threshold := removal_threshold s in
   let candidates := isort (map wrap (incoming s) ++ map copy extra) in
   modify (set_entries (merge_lists threshold candidates (entries s))) ;;
   modify (set_incoming []))%method.

(** ** The answers of quantiles *)

(** The answers [xs] stand at the positions of the quantiles [qs], and
    the answer is NaN exactly at the quantiles outside [0, 1]. *)
Definition answers_match (qs : list Q) (xs : list number) : Prop :=
  Forall2 (fun q x => out_of_range q = true <-> x = NaN) qs xs.

(** ** Order of the answers *)

(** The answers of [quantile] on the sketch [s] are ordered as the
    quantiles asked for: for [q1 < q2] in [0, 1] both calls return and
    [quantile(q1) <= quantile(q2)] holds of the floats returned. *)
Definition monotone_on (percentile : list ext -> Q -> outcome number)
  (s : GKArray) : Prop :=
  forall q1 q2 : Q,
    (0 <= q1)%Q -> (q1 < q2)%Q -> (q2 <= 1)%Q ->
    exists x1 x2,
      fst (quantile percentile q1 s) = Ok x1 /\
      fst (quantile percentile q2 s) = Ok x2 /\
      number_leb x1 x2 = true.

(** ** Streams and batches *)







(** [lo] and [hi] are the extremes of the values [vs]: the infinities of
    [__init__] for no value, the least and the greatest of them otherwise. *)
Definition extremes_of (vs : list Q) (lo hi : ext) : Prop :=
  match vs with
  | [] => lo = PosInf /\ hi = NegInf
  | _ :: _ =>
      (exists m, lo = Fin m /\ In m vs /\ forall x, In x vs -> (m <= x)%Q) /\
      (exists m, hi = Fin m /\ In m vs /\ forall x, In x vs -> (x <= m)%Q)
  end.

(** ** The entries across a compaction *)

(** Every entry of [l] has [g + delta] at most [bound]: the band of the
    Greenwald-Khanna summary. *)
Definition within_band (bound : Z) (l : list Entry) : Prop :=
  Forall (fun e => g e + delta e <= bound) l.

(** Every entry of [l] stands for at least one value and has a
    non-negative [delta], as [Entry(val, 1, 0)] has. *)
Definition weighted (l : list Entry) : Prop :=
  Forall (fun e => 1 <= g e /\ 0 <= delta e) l.

(** ** The state a compaction leaves *)

(** Lines 108-109 once the loop has run: the entries are the list built
    from the sorted extra entries and the entries, and the buffer is empty. *)
Definition flushed (extra : list Entry) (s : GKArray) : GKArray :=
  set_incoming []
    (set_entries (merge_lists (removal_threshold s) (isort extra) (entries s)) s).

(** ** Tactics *)

(** Runs the monad of a method body. *)

Ltac run :=
  unfold bind, get, modify, lift, ret, raise, on_self, on_other;
  cbv beta iota; cbn [fst snd].

Ltac fields :=
  cbn [eps entries incoming _min _max _n _sum _avg set_eps set_entries
       set_incoming set_min set_max set_n set_sum set_avg].

(** The two tests of lines 56 and 58, on the fields of the state before. *)
Ltac aggregates v s :=
  unfold add_aggregates; cbv zeta; fields;
  destruct (ltb (Fin v) (_min s)) eqn:?; fields;
  destruct (ltb (_max s) (Fin v)) eqn:?; fields.

(** ** Facts on numbers *)

Lemma Qltb_lt (x y : Q) : Qltb x y = true <-> (x < y)%Q.
Proof.
  unfold Qltb. rewrite Qlt_alt. destruct (x ?= y)%Q; split; congruence.
Qed.

Lemma Qltb_ge (x y : Q) : Qltb x y = false <-> (y <= x)%Q.
Proof.
  split.
  - intros H. apply Qnot_lt_le. intros Hlt. apply Qltb_lt in Hlt. congruence.
  - intros H. destruct (Qltb x y) eqn:E; trivial.
    apply Qltb_lt in E. exfalso. eapply Qlt_not_le; eassumption.
Qed.

Lemma Qleb_le (x y : Q) : Qleb x y = true <-> (x <= y)%Q.
Proof.
  unfold Qleb. rewrite negb_true_iff. apply Qltb_ge.
Qed.

Lemma ext_le_refl (x : ext) : le x x.
Proof.
  unfold le, leb. destruct x as [|q|]; simpl; trivial.
  rewrite negb_true_iff, Qltb_ge. apply Qle_refl.
Qed.

Lemma ext_le_trans (x y z : ext) : le x y -> le y z -> le x z.
Proof.
  unfold le, leb.
  destruct x as [|a|], y as [|b|], z as [|c|]; simpl; trivial; try discriminate.
  rewrite !negb_true_iff, !Qltb_ge. intros H1 H2. eapply Qle_trans; eassumption.
Qed.

Lemma ext_ltb_le (x y : ext) : ltb x y = true -> le x y.
Proof.
  unfold le, leb.
  destruct x as [|a|], y as [|b|]; simpl; trivial; try discriminate.
  rewrite negb_true_iff, Qltb_lt, Qltb_ge. apply Qlt_le_weak.
Qed.

Lemma ext_ltb_false_le (x y : ext) : ltb x y = false -> le y x.
Proof.
  unfold le, leb. intros ->. reflexivity.
Qed.

(** For a non-negative float [int] is the floor. *)
Lemma py_int_floor (x : Q) : (0 <= x)%Q -> py_int x = Qfloor x.
Proof.
  destruct x as [a b]. unfold py_int, Qfloor, Qle. simpl.
  intros H. apply Z.quot_div_nonneg; lia.
Qed.

Lemma py_int_mono (x y : Q) : (0 <= x)%Q -> (x <= y)%Q -> py_int x <= py_int y.
Proof.
  intros Hx Hxy. rewrite !py_int_floor.
  - apply Qfloor_resp_le. exact Hxy.
  - eapply Qle_trans; eassumption.
  - exact Hx.
Qed.


(** ** Sorting and sweeping *)

Lemma sorted_by_val_raw (v : Q) (vs : list Q) (rest : list pyobj) :
  sorted_by_val (map Raw (v :: vs) ++ rest) = Raise AttributeError.
Proof. reflexivity. Qed.

Lemma sorted_by_val_entries (l : list Entry) :
  sorted_by_val (map (fun e => Obj (copy e)) l) = Ok (isort (map copy l)).
Proof.
  induction l as [|e l IH]; simpl; trivial.
  rewrite IH. reflexivity.
Qed.

Lemma copy_id (e : Entry) : copy e = e.
Proof. destruct e; reflexivity. Qed.

Lemma map_copy_id (l : list Entry) : map copy l = l.
Proof.
  induction l as [|e l IH]; simpl; trivial. rewrite copy_id, IH. reflexivity.
Qed.

(** *** The loop builds the list of [merge_lists] *)

Lemma merge_lists_incoming_only (t : Z) (x : Entry) (inc : list Entry) :
  merge_lists t (x :: inc) [] = compress_tail t x inc.
Proof. reflexivity. Qed.

Lemma merge_lists_entries_only (t : Z) (e : Entry) (ent : list Entry) :
  merge_lists t [] (e :: ent) = compress_tail t e ent.
Proof. reflexivity. Qed.

Lemma sweep_loop_merge_lists (t : Z) (fuel : nat) :
  forall inc ent merged,
    (length inc + length ent <= fuel)%nat ->
    sweep_loop fuel t inc ent merged = merged ++ merge_lists t inc ent.
Proof.
  induction fuel as [|fuel IH]; intros inc ent merged Hfuel.
  - destruct inc, ent; simpl in Hfuel; try lia. simpl. rewrite app_nil_r. reflexivity.
  - destruct inc as [|x inc], ent as [|e ent]; cbn [sweep_loop].
    + simpl. rewrite app_nil_r. reflexivity.
    + (* only entries are left *)
      simpl in Hfuel. destruct ent as [|e' ent]; cbn [drop_or_keep].
      * rewrite IH by (simpl; lia). simpl. rewrite <- app_assoc. reflexivity.
      * rewrite !merge_lists_entries_only. cbn [compress_tail].
        destruct (removable t e e').
        -- rewrite IH by (simpl in *; lia). reflexivity.
        -- rewrite IH by (simpl in *; lia). rewrite <- app_assoc. reflexivity.
    + (* only incoming entries are left *)
      simpl in Hfuel. destruct inc as [|x' inc]; cbn [drop_or_keep].
      * rewrite IH by (simpl; lia). simpl. rewrite <- app_assoc. reflexivity.
      * rewrite !merge_lists_incoming_only. cbn [compress_tail].
        destruct (removable t x x').
        -- rewrite IH by (simpl in *; lia). reflexivity.
        -- rewrite IH by (simpl in *; lia). rewrite <- app_assoc. reflexivity.
    + simpl in Hfuel. cbn [merge_lists]. 
      destruct ent as [|e' ent]; cbn [sweep drop_or_keep];
        destruct (ltb (val x) (val e)).
      * destruct (removable t x e).
        -- rewrite IH by (simpl; lia). reflexivity.
        -- rewrite IH by (simpl; lia). rewrite <- app_assoc. reflexivity.
      * rewrite IH by (simpl; lia). rewrite <- app_assoc. reflexivity.
      * destruct (removable t x e).
        -- rewrite IH by (simpl in *; lia). reflexivity.
        -- rewrite IH by (simpl in *; lia). rewrite <- app_assoc. reflexivity.
      * destruct (removable t e e').
        -- rewrite IH by (simpl in *; lia). reflexivity.
        -- rewrite IH by (simpl in *; lia). rewrite <- app_assoc. reflexivity.
Qed.

(** A compaction whose buffer holds a raw value raises at line 72 and
    leaves the sketch as it was. *)
Lemma merge_compress_raw (extra : list Entry) (s : GKArray) :
  incoming s <> [] -> merge_compress extra s = (Raise AttributeError, s).
Proof.
  intros H. unfold merge_compress. run.
  destruct (incoming s) as [|v vs]; [congruence|]. reflexivity.
Qed.

(** A compaction with an empty buffer runs the sweep of the sorted extra
    entries against the entries. *)
Lemma merge_compress_flushed (extra : list Entry) (s : GKArray) :
  incoming s = [] ->
  merge_compress extra s =
  (Ok tt, set_incoming []
            (set_entries (merge_lists (removal_threshold s) (isort extra) (entries s)) s)).
Proof.
  intros H. unfold merge_compress. run. rewrite H. simpl.
  rewrite sorted_by_val_entries, map_copy_id. cbv beta iota zeta.
  rewrite sweep_loop_merge_lists by lia. reflexivity.
Qed.

Lemma merge_compress_cases (extra : list Entry) (s : GKArray) :
  (incoming s <> [] /\ merge_compress extra s = (Raise AttributeError, s)) \/
  (incoming s = [] /\
   merge_compress extra s =
   (Ok tt, set_incoming []
             (set_entries (merge_lists (removal_threshold s) (isort extra) (entries s)) s))).
Proof.
  destruct (incoming s) as [|v vs] eqn:E.
  - right. split; trivial. apply merge_compress_flushed. exact E.
  - left. split; [congruence|]. apply merge_compress_raw. congruence.
Qed.

(** *** The sweep keeps the rank mass *)

Lemma sum_g_app (l1 l2 : list Entry) : sum_g (l1 ++ l2) = sum_g l1 + sum_g l2.
Proof.
  induction l1 as [|e l1 IH]; simpl; [reflexivity|]. rewrite IH. lia.
Qed.

Lemma sum_g_insert (e : Entry) (l : list Entry) :
  sum_g (insert_by_val e l) = g e + sum_g l.
Proof.
  induction l as [|x l IH]; simpl; trivial.
  destruct (ltb (val x) (val e)); simpl; trivial. rewrite IH. lia.
Qed.

Lemma sum_g_isort (l : list Entry) : sum_g (isort l) = sum_g l.
Proof.
  induction l as [|e l IH]; simpl; trivial.
  rewrite sum_g_insert, IH. reflexivity.
Qed.

Lemma sum_g_compress_tail (t : Z) (rest : list Entry) :
  forall e, sum_g (compress_tail t e rest) = g e + sum_g rest.
Proof.
  induction rest as [|e' rest IH]; intros e; simpl; [lia|].
  destruct (removable t e e'); simpl; rewrite IH; simpl; lia.
Qed.

Lemma sum_g_sweep (t : Z) (inc : list Entry) :
  forall e ent, sum_g (sweep t inc e ent) = sum_g inc + (g e + sum_g ent).
Proof.
  induction inc as [|x inc IH]; intros e ent.
  - simpl. apply sum_g_compress_tail.
  - revert e. induction ent as [|e' ent IHent]; intros e; simpl.
    + destruct (ltb (val x) (val e)).
      * destruct (removable t x e); simpl; rewrite IH; simpl; lia.
      * simpl. rewrite sum_g_compress_tail. lia.
    + destruct (ltb (val x) (val e)).
      * destruct (removable t x e); simpl; rewrite IH; simpl; lia.
      * destruct (removable t e e'); simpl; rewrite IHent; simpl; lia.
Qed.

Lemma sum_g_merge_lists (t : Z) (inc ent : list Entry) :
  sum_g (merge_lists t inc ent) = sum_g inc + sum_g ent.
Proof.
  unfold merge_lists. destruct ent as [|e ent].
  - destruct inc as [|x inc]; simpl; trivial.
    rewrite sum_g_compress_tail. lia.
  - rewrite sum_g_sweep. reflexivity.
Qed.

(** *** The sweep keeps the order *)

Lemma ascending_from_cons (low : ext) (e : Entry) (l : list Entry) :
  ascending_from low (e :: l) = true <->
  le low (val e) /\ ascending_from (val e) l = true.
Proof. simpl. rewrite andb_true_iff. reflexivity. Qed.

Lemma ascending_from_weaken (low low' : ext) (l : list Entry) :
  le low' low -> ascending_from low l = true -> ascending_from low' l = true.
Proof.
  intros Hle. destruct l as [|e l]; trivial.
  rewrite !ascending_from_cons. intros [H1 H2]. split; trivial.
  eapply ext_le_trans; eassumption.
Qed.

Lemma le_NegInf (x : ext) : le NegInf x.
Proof. destruct x; reflexivity. Qed.

Lemma ascending_of_from (low : ext) (l : list Entry) :
  ascending_from low l = true -> ascending l = true.
Proof. apply ascending_from_weaken, le_NegInf. Qed.

Lemma ascending_compress_tail (t : Z) (rest : list Entry) :
  forall low e,
    ascending_from low (e :: rest) = true ->
    ascending_from low (compress_tail t e rest) = true.
Proof.
  induction rest as [|e' rest IH]; intros low e H; [exact H|].
  cbn [compress_tail].
  apply ascending_from_cons in H. destruct H as [Hlow H].
  apply ascending_from_cons in H. destruct H as [Hee' H].
  destruct (removable t e e').
  - apply IH. apply ascending_from_cons. split; trivial.
    simpl. eapply ext_le_trans; eassumption.
  - apply ascending_from_cons. split; trivial.
    apply IH. apply ascending_from_cons. split; trivial.
Qed.

Lemma ascending_sweep (t : Z) (inc : list Entry) :
  forall low e ent,
    ascending_from low inc = true ->
    ascending_from low (e :: ent) = true ->
    ascending_from low (sweep t inc e ent) = true.
Proof.
  induction inc as [|x inc IH]; intros low e ent Hinc Hent.
  - simpl. apply ascending_compress_tail. exact Hent.
  - apply ascending_from_cons in Hinc. destruct Hinc as [Hx Hinc].
    revert low e Hx Hent.
    induction ent as [|e' ent IHent]; intros low e Hx Hent;
      apply ascending_from_cons in Hent; destruct Hent as [He Hent];
      cbn [sweep]; destruct (ltb (val x) (val e)) eqn:Hlt.
    + destruct (removable t x e).
      * apply IH.
        -- apply ascending_from_weaken with (low := val x); assumption.
        -- apply ascending_from_cons. split; trivial.
      * apply ascending_from_cons. split; trivial.
        apply IH; trivial.
        apply ascending_from_cons. split; trivial. apply ext_ltb_le. exact Hlt.
    + apply ascending_from_cons. split; trivial.
      apply ascending_compress_tail, ascending_from_cons. split; trivial.
      apply ext_ltb_false_le. exact Hlt.
    + destruct (removable t x e).
      * apply IH.
        -- apply ascending_from_weaken with (low := val x); assumption.
        -- apply ascending_from_cons. split; trivial.
      * apply ascending_from_cons. split; trivial.
        apply IH; trivial.
        apply ascending_from_cons. split; trivial. apply ext_ltb_le. exact Hlt.
    + apply ascending_from_cons in Hent. destruct Hent as [Hee' Hent].
      destruct (removable t e e').
      * apply IHent; trivial.
        apply ascending_from_cons. split; trivial.
        simpl. eapply ext_le_trans; eassumption.
      * apply ascending_from_cons. split; trivial.
        apply IHent.
        -- apply ext_ltb_false_le. exact Hlt.
        -- apply ascending_from_cons. split; trivial.
Qed.

Lemma ascending_insert (e : Entry) (l : list Entry) :
  forall low,
    le low (val e) -> ascending_from low l = true ->
    ascending_from low (insert_by_val e l) = true.
Proof.
  induction l as [|x l IH]; intros low Hlow Hl.
  - simpl. rewrite andb_true_r. exact Hlow.
  - apply ascending_from_cons in Hl. destruct Hl as [Hx Hl].
    simpl insert_by_val. destruct (ltb (val x) (val e)) eqn:Hlt.
    + apply ascending_from_cons. split; trivial.
      apply IH; trivial. apply ext_ltb_le. exact Hlt.
    + apply ascending_from_cons. split; trivial.
      apply ascending_from_cons. split; trivial.
      apply ext_ltb_false_le. exact Hlt.
Qed.

Lemma ascending_isort (l : list Entry) : ascending (isort l) = true.
Proof.
  induction l as [|e l IH]; trivial.
  simpl. apply ascending_insert; trivial. apply le_NegInf.
Qed.

Lemma ascending_merge_lists (t : Z) (inc ent : list Entry) :
  ascending inc = true -> ascending ent = true ->
  ascending (merge_lists t inc ent) = true.
Proof.
  intros Hinc Hent. unfold merge_lists. destruct ent as [|e ent].
  - destruct inc as [|x inc]; trivial.
    apply ascending_compress_tail. exact Hinc.
  - apply ascending_sweep; trivial.
Qed.

(** *** What a completed compaction leaves *)

Lemma merge_compress_accounted (extra : list Entry) (s s' : GKArray) :
  ascending (entries s) = true ->
  merge_compress extra s = (Ok tt, s') ->
  incoming s = [] /\
  incoming s' = [] /\
  sum_g (entries s') = sum_g extra + sum_g (entries s) /\
  ascending (entries s') = true /\
  _n s' = _n s /\ eps s' = eps s /\ _min s' = _min s /\ _max s' = _max s /\
  _sum s' = _sum s /\ _avg s' = _avg s.
Proof.
  intros Hasc H.
  destruct (merge_compress_cases extra s) as [[_ E]|[Hin E]];
    rewrite E in H; [discriminate|].
  injection H as <-. simpl.
  rewrite sum_g_merge_lists, sum_g_isort.
  repeat split; trivial.
  apply ascending_merge_lists; trivial. apply ascending_isort.
Qed.

Lemma merge_compress_compacted (s s' : GKArray) :
  accounted s -> merge_compress [] s = (Ok tt, s') -> compacted s'.
Proof.
  intros [Hsum Hasc] H.
  destruct (merge_compress_accounted [] s s' Hasc H)
    as (Hin & Hin' & Hg & Hasc' & Hn & _).
  unfold compacted, count. rewrite Hg, Hn. rewrite Hin in Hsum. simpl in *.
  repeat split; trivial.
  unfold count in Hsum. lia.
Qed.

(** ** The pending buffer *)

(** The step [if len(self.incoming) > 0: self.merge_compress()] of [size],
    [quantile] and [quantiles]: it never changes the sketch, since the
    compaction it asks for is one of a non-empty buffer. *)
Lemma flush_cases (s : GKArray) :
  (incoming s = [] /\
   when (0 <? length (incoming s))%nat (merge_compress []) s = (Ok tt, s)) \/
  (incoming s <> [] /\
   when (0 <? length (incoming s))%nat (merge_compress []) s
   = (Raise AttributeError, s)).
Proof.
  destruct (incoming s) as [|v vs] eqn:E.
  - left. split; trivial.
  - right. split; [congruence|]. simpl. apply merge_compress_raw. congruence.
Qed.

Lemma incoming_add_aggregates (v : Q) (s : GKArray) :
  incoming (add_aggregates v s) = incoming s ++ [v].
Proof.
  aggregates v s; reflexivity.
Qed.

Lemma incoming_add_aggregates_nonempty (v : Q) (s : GKArray) :
  incoming (add_aggregates v s) <> [].
Proof.
  rewrite incoming_add_aggregates. destruct (incoming s); discriminate.
Qed.

(** [add] leaves the sketch with its aggregates updated and the value in
    the buffer, whether it returns or raises. *)
Lemma add_state (v : Q) (s : GKArray) : snd (add v s) = add_aggregates v s.
Proof.
  unfold add. run.
  destruct (period (add_aggregates v s)) as [k|e]; simpl; trivial.
  destruct (py_mod (count (add_aggregates v s)) k) as [r|e]; simpl; trivial.
  unfold when. destruct (r =? 0); simpl; trivial.
  rewrite merge_compress_raw by apply incoming_add_aggregates_nonempty.
  reflexivity.
Qed.

Lemma size_state (s : GKArray) : snd (size s) = s.
Proof.
  unfold size. run.
  destruct (flush_cases s) as [[_ E]|[_ E]]; rewrite E; reflexivity.
Qed.

Section QueryFacts.

Variable percentile : list ext -> Q -> outcome number.

Lemma quantile_state (q : Q) (s : GKArray) : snd (quantile percentile q s) = s.
Proof.
  unfold quantile. run.
  destruct (out_of_range q || (_n s =? 0)%nat); trivial.
  destruct (flush_cases s) as [[_ E]|[_ E]]; rewrite E; trivial.
  destruct (py_div 1 (eps s)) as [limit|e]; trivial.
  destruct (Qltb (countQ s) limit).
  - destruct (percentile _ _); reflexivity.
  - destruct (_ =? 0)%nat; trivial.
    destruct (py_index _ _); reflexivity.
Qed.

(** A query on a sketch that holds values not yet compacted raises. *)
Lemma quantile_pending (q : Q) (s : GKArray) :
  out_of_range q = false -> _n s <> 0%nat -> incoming s <> [] ->
  quantile percentile q s = (Raise AttributeError, s).
Proof.
  intros Hq Hn Hin. unfold quantile. run.
  rewrite Hq. apply Nat.eqb_neq in Hn. rewrite Hn. simpl.
  destruct (flush_cases s) as [[E _]|[_ E]]; [contradiction|].
  rewrite E. reflexivity.
Qed.

Lemma mapM_state {A B : Type} (f : A -> M GKArray B) (l : list A) (s : GKArray) :
  (forall a s, snd (f a s) = s) -> snd (mapM f l s) = s.
Proof.
  intros Hf. revert s. induction l as [|a l IH]; intros s; trivial.
  simpl. unfold bind.
  specialize (Hf a s). destruct (f a s) as [[b|e] s1]; simpl in Hf; subst s1; trivial.
  specialize (IH s). destruct (mapM f l s) as [[bs|e] s2]; simpl in IH; subst s2;
    reflexivity.
Qed.

Lemma quantiles_state (qs : list Q) (s : GKArray) :
  snd (quantiles percentile qs s) = s.
Proof.
  unfold quantiles. run.
  destruct (_n s =? 0)%nat; trivial.
  destruct (flush_cases s) as [[_ E]|[_ E]]; rewrite E; trivial.
  destruct (py_div 1 (eps s)) as [limit|e]; trivial.
  destruct (Qltb (countQ s) limit).
  - apply mapM_state. intros q s0.
    destruct (Qleb 0 q && Qleb q 1); reflexivity.
  - destruct (negb _); trivial.
    apply mapM_state. intros q s0. apply quantile_state.
Qed.

Lemma quantiles_pending (qs : list Q) (s : GKArray) :
  _n s <> 0%nat -> incoming s <> [] ->
  quantiles percentile qs s = (Raise AttributeError, s).
Proof.
  intros Hn Hin. unfold quantiles. run.
  apply Nat.eqb_neq in Hn. rewrite Hn.
  destruct (flush_cases s) as [[E _]|[_ E]]; [contradiction|].
  rewrite E. reflexivity.
Qed.

End QueryFacts.

(** ** Sketches built through the interface *)

Lemma buffered_init (e : Q) : buffered (init e).
Proof. split; reflexivity. Qed.

Lemma n_add_aggregates (v : Q) (s : GKArray) :
  _n (add_aggregates v s) = (_n s + 1)%nat.
Proof.
  aggregates v s; reflexivity.
Qed.

Lemma entries_add_aggregates (v : Q) (s : GKArray) :
  entries (add_aggregates v s) = entries s.
Proof.
  aggregates v s; reflexivity.
Qed.

Lemma buffered_add (v : Q) (s : GKArray) : buffered s -> buffered (snd (add v s)).
Proof.
  intros [He Hn]. rewrite add_state. split.
  - rewrite entries_add_aggregates. exact He.
  - rewrite incoming_add_aggregates, n_add_aggregates, length_app, Hn. reflexivity.
Qed.

Lemma buffered_pending (s : GKArray) :
  buffered s -> _n s <> 0%nat -> incoming s <> [].
Proof.
  intros [_ Hn] H0 E. rewrite E in Hn. simpl in Hn. congruence.
Qed.

Lemma buffered_empty (s : GKArray) :
  buffered s -> _n s = 0%nat -> incoming s = [].
Proof.
  intros [_ Hn] H0. rewrite H0 in Hn. destruct (incoming s); [trivial|discriminate].
Qed.

Lemma buffered_compress (s : GKArray) :
  buffered s -> snd (merge_compress [] s) = s.
Proof.
  intros [He Hn].
  destruct (merge_compress_cases [] s) as [[_ E]|[Hin E]]; rewrite E; trivial.
  simpl. rewrite He. unfold set_incoming, set_entries. simpl.
  destruct s; simpl in *. subst. reflexivity.
Qed.

Lemma buffered_merge (s o : GKArray) :
  buffered s -> buffered o -> snd (merge (s, o)) = (s, o).
Proof.
  intros Hs Ho. unfold merge. run.
  destruct (negb (Qeq_bool (eps s) (eps o))); trivial.
  destruct (_n o =? 0)%nat eqn:Eo.
  - run. pose proof (buffered_compress s Hs) as E.
    destruct (merge_compress [] s) as [r s']. simpl in *. subst. reflexivity.
  - apply Nat.eqb_neq in Eo.
    pose proof (merge_compress_raw [] o (buffered_pending o Ho Eo)) as E.
    destruct (_n s =? 0)%nat; run; rewrite E; reflexivity.
Qed.

Lemma buffered_merge_same (s : GKArray) :
  buffered s -> snd (merge_same s) = s.
Proof.
  intros Hs. unfold merge_same. run.
  destruct (negb (Qeq_bool (eps s) (eps s))); trivial.
  destruct (_n s =? 0)%nat eqn:En.
  - apply buffered_compress. exact Hs.
  - apply Nat.eqb_neq in En.
    rewrite (merge_compress_raw [] s (buffered_pending s Hs En)). reflexivity.
Qed.

Lemma reachable_buffered (percentile : list ext -> Q -> outcome number)
  (s : GKArray) : reachable percentile s -> buffered s.
Proof.
  induction 1 as [e|s v _ IH|s _ IH|s q _ IH|s qs _ IH
                 |s o _ IHs _ IHo|s o _ IHs _ IHo|s _ IH].
  - apply buffered_init.
  - apply buffered_add. exact IH.
  - rewrite size_state. exact IH.
  - rewrite quantile_state. exact IH.
  - rewrite quantiles_state. exact IH.
  - rewrite buffered_merge; assumption.
  - rewrite buffered_merge; assumption.
  - rewrite buffered_merge_same; assumption.
Qed.

Lemma buffered_ingest (vs : list Q) :
  forall s, buffered s -> buffered (ingest vs s).
Proof.
  induction vs as [|v vs IH]; intros s Hs; [exact Hs|].
  simpl. apply IH, buffered_add, Hs.
Qed.

Lemma n_ingest (vs : list Q) :
  forall s, _n (ingest vs s) = (_n s + length vs)%nat.
Proof.
  induction vs as [|v vs IH]; intros s; simpl; [lia|].
  fold (ingest vs (snd (add v s))). rewrite IH, add_state, n_add_aggregates. lia.
Qed.

(** ** The scan of quantile *)

Lemma scan_index_length (bound : Z) (ents : list Entry) :
  forall g0, (scan_index bound g0 ents <= length ents)%nat.
Proof.
  induction ents as [|e rest IH]; intros g0; simpl; [lia|].
  destruct (bound <? g0 + g e + delta e - 1); [lia|].
  specialize (IH (g0 + g e)). lia.
Qed.

Lemma scan_index_mono (b1 b2 : Z) (ents : list Entry) :
  b1 <= b2 ->
  forall g0, (scan_index b1 g0 ents <= scan_index b2 g0 ents)%nat.
Proof.
  intros Hb. induction ents as [|e rest IH]; intros g0; simpl; [lia|].
  destruct (b1 <? g0 + g e + delta e - 1) eqn:E1; [lia|].
  destruct (b2 <? g0 + g e + delta e - 1) eqn:E2.
  - apply Z.ltb_ge in E1. apply Z.ltb_lt in E2. lia.
  - specialize (IH (g0 + g e)). lia.
Qed.


Lemma picked_low (ents : list Entry) :
  forall low i, ascending_from low ents = true -> le low (picked low ents i).
Proof.
  induction ents as [|e rest IH]; intros low i H.
  - destruct i; apply ext_le_refl.
  - apply ascending_from_cons in H. destruct H as [H1 H2].
    destruct i as [|k]; [apply ext_le_refl|]. simpl.
    eapply ext_le_trans; [exact H1|]. apply IH. exact H2.
Qed.

Lemma picked_mono (ents : list Entry) :
  forall low i j,
    ascending_from low ents = true -> (i <= j)%nat ->
    le (picked low ents i) (picked low ents j).
Proof.
  induction ents as [|e rest IH]; intros low i j H Hij.
  - destruct i, j; apply ext_le_refl.
  - destruct i as [|i].
    + apply (picked_low (e :: rest) low j H).
    + destruct j as [|j]; [lia|]. simpl.
      apply ascending_from_cons in H. apply IH; [tauto|lia].
Qed.

(** [picked] is the indexing of lines 182-185. *)
Lemma picked_index (ents : list Entry) :
  forall low i, (i <= length ents)%nat ->
    (if (i =? 0)%nat then Ok low
     else match py_index ents (i - 1) with
          | Ok e => Ok (val e)
          | Raise x => Raise x
          end) = Ok (picked low ents i).
Proof.
  induction ents as [|e rest IH]; intros low i Hi.
  - simpl in Hi. assert (i = 0)%nat as -> by lia. reflexivity.
  - destruct i as [|[|i]]; [reflexivity|reflexivity|].
    simpl in Hi. specialize (IH (val e) (S i) ltac:(lia)).
    cbn [Nat.eqb] in *. cbn [picked].
    replace (S (S i) - 1)%nat with (S i) by lia.
    replace (S i - 1)%nat with i in IH by lia.
    unfold py_index in *. cbn [nth_error]. exact IH.
Qed.

Section ScanFacts.

Variable percentile : list ext -> Q -> outcome number.

(** [quantile] on a sketch whose buffer is empty and which has reached
    the sketching size: the sketch is left as it is and the answer is the
    one picked by the scan. *)
Lemma quantile_scan (q : Q) (s : GKArray) (limit : Q) :
  out_of_range q = false -> _n s <> 0%nat -> incoming s = [] ->
  py_div 1 (eps s) = Ok limit -> Qltb (countQ s) limit = false ->
  quantile percentile q s =
  (Ok (Num (picked (_min s) (entries s)
              (scan_index (rank s q + spread_of s) 0 (entries s)))), s).
Proof.
  intros Hq Hn Hin Hdiv Hsize. unfold quantile. run.
  rewrite Hq. apply Nat.eqb_neq in Hn. rewrite Hn. cbn [orb].
  destruct (flush_cases s) as [[_ E]|[E _]]; [|contradiction].
  rewrite E, Hdiv, Hsize.
  pose proof (picked_index (entries s) (_min s) _
                (scan_index_length (rank s q + spread_of s) (entries s) 0)) as P.
  destruct (scan_index (rank s q + spread_of s) 0 (entries s) =? 0)%nat.
  - injection P as <-. reflexivity.
  - destruct (py_index _ _); [|discriminate]. injection P as <-. reflexivity.
Qed.

End ScanFacts.

(** ** Operations on a sketch that holds values *)

Lemma size_pending (s : GKArray) :
  incoming s <> [] -> size s = (Raise AttributeError, s).
Proof.
  intros Hin. unfold size. run.
  destruct (flush_cases s) as [[E _]|[_ E]]; [contradiction|].
  rewrite E. reflexivity.
Qed.

Lemma ingest_pending (v : Q) (vs : list Q) (e : Q) :
  let s := ingest (v :: vs) (init e) in _n s <> 0%nat /\ incoming s <> [].
Proof.
  cbn zeta.
  assert (Hn : _n (ingest (v :: vs) (init e)) <> 0%nat).
  { rewrite n_ingest. simpl. lia. }
  split; trivial.
  apply buffered_pending; trivial. apply buffered_ingest, buffered_init.
Qed.

(** C1, refuted by the code.  The claim is that on a sketch of positive
    precision no operation fails but a merge of unequal precisions, and in
    particular that a compaction with values in the buffer does not fail.
    In the code, whatever the precision and the value, [size()] called
    after one [add] raises [AttributeError]: the compaction it asks for
    takes the attribute [val] of a raw value.  With precision 0.5 the
    first two calls of [add] return and the third, which is due for a
    compaction, raises. *)
Theorem pending_value_makes_size_and_add_raise :
  (forall e v : Q, fst (size (snd (add v (init e)))) = Raise AttributeError) /\
  fst (add 1 (init half)) = Ok tt /\
  fst (add 2 (ingest [1%Q] (init half))) = Ok tt /\
  fst (add 3 two_values) = Raise AttributeError.
Proof.
  split.
  - intros e v. rewrite size_pending; trivial.
    rewrite add_state. apply incoming_add_aggregates_nonempty.
  - repeat split; vm_compute; reflexivity.
Qed.

(** With nothing in the buffer the code and the specification agree. *)
Lemma merge_compress_as_specified_flushed (extra : list Entry) (s : GKArray) :
  incoming s = [] ->
  merge_compress extra s = merge_compress_as_specified extra s.
Proof.
  intros H. rewrite merge_compress_flushed by exact H.
  unfold merge_compress_as_specified. run. rewrite H, map_copy_id. reflexivity.
Qed.

(** C2, refuted by the code.  The claim is that [merge_compress] wraps
    every raw value of the buffer as an entry with [g = 1] and [delta = 0],
    sorts the candidates, and leaves [entries] replaced and the buffer
    empty.  The code puts the raw values themselves in the list it sorts:
    with a value in the buffer the call raises [AttributeError], and the
    entries and the buffer are left as they were.  After [add(1.0)] on a
    sketch of precision 0.5 the compaction of the specification leaves
    the entry [(1.0, 1, 0)] and an empty buffer; the code leaves no entry
    and the value in the buffer. *)
Theorem merge_compress_takes_raw_values_for_entries :
  (forall (s : GKArray) (v : Q) (vs : list Q) (extra : list Entry),
     let s0 := set_incoming (v :: vs) s in
     merge_compress extra s0 = (Raise AttributeError, s0) /\
     entries (snd (merge_compress extra s0)) = entries s /\
     incoming (snd (merge_compress extra s0)) = v :: vs) /\
  (let s0 := ingest [1%Q] (init half) in
   fst (merge_compress_as_specified [] s0) = Ok tt /\
   entries (snd (merge_compress_as_specified [] s0)) = [mkEntry (Fin 1) 1 0] /\
   incoming (snd (merge_compress_as_specified [] s0)) = [] /\
   fst (merge_compress [] s0) = Raise AttributeError /\
   entries (snd (merge_compress [] s0)) = [] /\
   incoming (snd (merge_compress [] s0)) = [1%Q]).
Proof.
  split.
  - intros s v vs extra s0.
    assert (E : merge_compress extra s0 = (Raise AttributeError, s0)).
    { apply merge_compress_raw. discriminate. }
    rewrite E. repeat split.
  - repeat split; vm_compute; reflexivity.
Qed.

Section StreamQueries.

Variable percentile : list ext -> Q -> outcome number.

(** C3, refuted by the code.  The claim bounds the rank error of the value
    that [quantile(q)] returns after a stream of at least [1/eps] values.
    In the code no value is returned: after any non-empty stream, whatever
    the precision, [quantile(q)] with [q] in [0, 1] raises
    [AttributeError] in the compaction of the buffer. *)
Theorem quantile_after_a_stream_raises :
  forall (e v : Q) (vs : list Q) (q : Q),
    fst (quantile percentile q (ingest (v :: vs) (init e))) =
    if out_of_range q then Ok NaN else Raise AttributeError.
Proof.
  intros e v vs q.
  destruct (ingest_pending v vs e) as [Hn Hin].
  destruct (out_of_range q) eqn:Hq.
  - unfold quantile. run. rewrite Hq. reflexivity.
  - rewrite quantile_pending; trivial.
Qed.

End StreamQueries.

(** ** After a compaction *)

(** *** The rank mass of the synthetic entries *)

Lemma last_delta_index (rest : list Entry) :
  forall e last,
    py_index (e :: rest) (length (e :: rest) - 1) = Ok last ->
    delta last = last_delta e rest.
Proof.
  induction rest as [|e' rest IH]; intros e last H.
  - simpl in H. injection H as <-. reflexivity.
  - cbn [last_delta]. apply IH.
    cbn [length] in *. replace (S (S (length rest)) - 1)%nat with (S (length rest)) in H by lia.
    replace (S (length rest) - 1)%nat with (length rest) by lia. exact H.
Qed.

(** The interior entries carry at least the mass of the entries behind the
    first, corrected by the [delta] of the first and of the last. *)
Lemma sum_g_cons (e : Entry) (l : list Entry) : sum_g (e :: l) = g e + sum_g l.
Proof. reflexivity. Qed.

Lemma interior_entries_cons (e e' : Entry) (rest : list Entry) :
  interior_entries (e :: e' :: rest)
  = (if 0 <? g e' + delta e' - delta e
     then [mkEntry (val e) (g e' + delta e' - delta e) 0] else [])
    ++ interior_entries (e' :: rest).
Proof. reflexivity. Qed.

Lemma sum_g_interior_entries (rest : list Entry) :
  forall e,
    sum_g rest + last_delta e rest - delta e
    <= sum_g (interior_entries (e :: rest)).
Proof.
  induction rest as [|e' rest IH]; intros e.
  - simpl. lia.
  - specialize (IH e'). rewrite interior_entries_cons. cbn [last_delta].
    rewrite sum_g_app, sum_g_cons.
    set (tail := sum_g (interior_entries (e' :: rest))) in *.
    destruct (0 <? g e' + delta e' - delta e) eqn:E.
    + rewrite sum_g_cons. cbn [g sum_g fold_right]. lia.
    + apply Z.ltb_ge in E. cbn [sum_g fold_right]. lia.
Qed.

(** Lines 135-147 keep the positive [g] only, so the synthetic entries
    carry at least the mass of the entries of [other], and more when a
    negative [g] was left out. *)
Lemma synthetic_entries_mass (spread : Z) (o : GKArray) (extra : list Entry) :
  synthetic_entries spread o = Ok extra ->
  sum_g (entries o) <= sum_g extra.
Proof.
  unfold synthetic_entries.
  remember (interior_entries (entries o)) as middle eqn:Hmiddle.
  destruct (entries o) as [|e rest] eqn:Ents; [discriminate|].
  change (py_index (e :: rest) 0) with (Ok e).
  destruct (py_index (e :: rest) (length (e :: rest) - 1)) as [last|x] eqn:L;
    [|discriminate].
  intros H. injection H as H. subst extra.
  pose proof (last_delta_index rest e last L) as Hd.
  assert (Hi : sum_g rest + last_delta e rest - delta e <= sum_g middle).
  { rewrite Hmiddle. apply sum_g_interior_entries. }
  rewrite !sum_g_app, sum_g_cons.
  destruct (0 <? g e + delta e - spread - 1) eqn:E1;
    destruct (0 <? spread + 1 - delta last) eqn:E2;
    cbn [g sum_g fold_right];
    try apply Z.ltb_ge in E1; try apply Z.ltb_ge in E2; lia.
Qed.

(** The general case of [merge], lines 135-154, when it returns: [other]
    is compacted; the buffer of [self] is empty and its entries are in
    order; they carry the mass of the entries [self] had and of the
    synthetic entries, which is at least the new count. *)
Lemma merge_general_accounted (s o s' o' : GKArray) :
  accounted s -> accounted o -> _n s <> 0%nat -> _n o <> 0%nat ->
  merge (s, o) = (Ok tt, (s', o')) ->
  compacted o' /\
  incoming s' = [] /\
  ascending (entries s') = true /\
  count s' = count s + count o /\
  (exists extra,
      synthetic_entries (spread_of o) o' = Ok extra /\
      sum_g (entries s') = count s + sum_g extra) /\
  count s' <= sum_g (entries s').
Proof.
  intros [Hsum Hasc] Ho Hns Hno. apply Nat.eqb_neq in Hns, Hno.
  unfold merge. run.
  destruct (negb (Qeq_bool (eps s) (eps o))); [discriminate|].
  rewrite Hno, Hns. run.
  destruct (merge_compress [] o) as [[[]|x] o1] eqn:E; [|discriminate].
  cbn [fst snd].
  fold (spread_of o).
  destruct (synthetic_entries (spread_of o) o1) as [extra|x] eqn:Es;
    [|discriminate].
  destruct (merge_compress extra (widen o1 s)) as [r s1] eqn:E1.
  intros [= -> <- <-].
  pose proof (merge_compress_compacted o o1 Ho E) as Hc.
  destruct (merge_compress_accounted [] o o1 (proj2 Ho) E)
    as (_ & _ & _ & _ & Hn1 & _).
  destruct (merge_compress_accounted extra (widen o1 s) s1 Hasc E1)
    as (Hin & Hin' & Hg & Hasc' & Hn & _).
  unfold widen in Hin, Hg, Hn. revert Hin Hg Hn. fields. intros Hin Hg Hn.
  rewrite Hin in Hsum. simpl in Hsum.
  assert (Hcount : count s1 = count s + count o).
  { unfold count. rewrite Hn, Hn1. lia. }
  pose proof (synthetic_entries_mass _ _ _ Es) as Hmass.
  destruct Hc as (Hgo & Hino & Hasco).
  repeat split; trivial.
  - exists extra. split; trivial. lia.
  - rewrite Hcount, Hg. unfold count in *. rewrite Hn1 in Hgo. lia.
Qed.

(** X25.  When [merge] of two sketches that both hold values returns,
    and each had its entries in ascending order accounting with its buffer
    for its count, [other] is left compacted and [self] with an empty
    buffer, its entries in ascending order, the two counts added, and a
    sum of [g] over its entries that is at least its count: the
    synthetic entries carry at least the rank mass of [other], whatever
    the spread, and the sweep keeps the mass, whatever the threshold. *)
Theorem merge_leaves_at_least_the_count_in_rank_mass :
  forall s o : GKArray,
    accounted s -> accounted o -> _n s <> 0%nat -> _n o <> 0%nat ->
    fst (merge (s, o)) = Ok tt ->
    let s' := fst (snd (merge (s, o))) in
    let o' := snd (snd (merge (s, o))) in
    compacted o' /\
    incoming s' = [] /\
    ascending (entries s') = true /\
    count s' = count s + count o /\
    count s' <= sum_g (entries s').
Proof.
  intros s o Hs Ho Hns Hno Hok s' o'. subst s' o'.
  destruct (merge (s, o)) as [r [s1 o1]] eqn:E. cbn [fst snd] in *. subst r.
  destruct (merge_general_accounted s o s1 o1 Hs Ho Hns Hno E)
    as (H1 & H2 & H3 & H4 & _ & H6).
  split; [exact H1|]. split; [exact H2|]. split; [exact H3|].
  split; [exact H4|exact H6].
Qed.

(** X25 at two sketches of precision 0.5 with empty buffers: one of the
    single value 1000 and one of the values 0, 7 and 26 with the entries
    (0, 1, 0) and (26, 2, 0).  The spread of [other] is 1, so the
    synthetic entry at its minimum would have [g = 1 + 0 - 1 - 1 = -1] and
    is left out by the test of line 139; the two others have [g = 2]
    each.  The merge leaves [self] with the count 4 and two entries whose
    [g], 2 and 3, sum to 5. *)
Lemma merge_leaves_at_least_the_count_in_rank_mass_witness :
  (accounted one_value /\ accounted three_values /\
   _n one_value <> 0%nat /\ _n three_values <> 0%nat /\
   fst (merge (one_value, three_values)) = Ok tt) /\
  entries (fst (snd (merge (one_value, three_values))))
  = [mkEntry (Fin 26) 2 1; mkEntry (Fin 1000) 3 0] /\
  count (fst (snd (merge (one_value, three_values)))) = 4 /\
  count (fst (snd (merge (one_value, three_values))))
  <= sum_g (entries (fst (snd (merge (one_value, three_values))))).
Proof.
  assert (A1 : accounted one_value) by (split; reflexivity).
  assert (A3 : accounted three_values) by (split; reflexivity).
  assert (N1 : _n one_value <> 0%nat) by discriminate.
  assert (N3 : _n three_values <> 0%nat) by discriminate.
  assert (R : fst (merge (one_value, three_values)) = Ok tt)
    by (vm_compute; reflexivity).
  split; [repeat split; assumption|].
  split; [vm_compute; reflexivity|]. split; [vm_compute; reflexivity|].
  apply (merge_leaves_at_least_the_count_in_rank_mass
           one_value three_values A1 A3 N1 N3 R).
Defined.

(** ** merge *)

Lemma merge_compress_exn (extra : list Entry) (s : GKArray) (e : exn) :
  fst (merge_compress extra s) = Raise e -> e = AttributeError.
Proof.
  destruct (merge_compress_cases extra s) as [[_ E]|[_ E]]; rewrite E; simpl;
    congruence.
Qed.

Lemma synthetic_entries_exn (spread : Z) (o : GKArray) (e : exn) :
  synthetic_entries spread o = Raise e -> e = IndexError.
Proof.
  unfold synthetic_entries, py_index.
  destruct (nth_error (entries o) 0); [|congruence].
  destruct (nth_error (entries o) (length (entries o) - 1)); congruence.
Qed.

(** Besides the check of line 118, [merge] raises only what the
    compactions and the indexing of [other.entries] raise. *)
Lemma merge_exn (s o : GKArray) (e : exn) :
  Qeq_bool (eps s) (eps o) = true ->
  fst (merge (s, o)) = Raise e -> e = AttributeError \/ e = IndexError.
Proof.
  intros Heq. unfold merge. run. rewrite Heq. cbn [negb].
  destruct (_n o =? 0)%nat.
  - run. destruct (merge_compress [] s) as [r s1] eqn:E. simpl.
    intros ->. left. apply (merge_compress_exn [] s). rewrite E. reflexivity.
  - destruct (_n s =? 0)%nat; run;
      destruct (merge_compress [] o) as [[[]|x] o1] eqn:E; simpl.
    + discriminate.
    + intros [= ->]. left. apply (merge_compress_exn [] o). rewrite E. reflexivity.
    + destruct (synthetic_entries _ o1) as [extra|x] eqn:Es; simpl.
      * destruct (merge_compress extra (widen o1 s)) as [r s1] eqn:E1. simpl.
        intros ->. left. apply (merge_compress_exn extra (widen o1 s)).
        rewrite E1. reflexivity.
      * intros [= ->]. right. eapply synthetic_entries_exn. exact Es.
    + intros [= ->]. left. apply (merge_compress_exn [] o). rewrite E. reflexivity.
Qed.

(** C7.  [merge] raises [UnequalEpsilonException] exactly when the two
    precisions differ, and it then leaves every field of [self] and of
    [other] as it was; a sketch merged into itself never raises it. *)
Theorem merge_unequal_precision :
  forall self other : GKArray,
    (fst (merge (self, other)) = Raise UnequalEpsilonException <->
     ~ (eps self == eps other)%Q) /\
    (~ (eps self == eps other)%Q ->
     merge (self, other) = (Raise UnequalEpsilonException, (self, other))) /\
    fst (merge_same self) <> Raise UnequalEpsilonException.
Proof.
  intros self other.
  assert (R : ~ (eps self == eps other)%Q ->
              merge (self, other) = (Raise UnequalEpsilonException, (self, other))).
  { intros Hne. unfold merge. run.
    destruct (Qeq_bool (eps self) (eps other)) eqn:E; trivial.
    apply Qeq_bool_iff in E. contradiction. }
  split; [split|split; trivial].
  - intros H Heq. apply Qeq_bool_iff in Heq.
    destruct (merge_exn self other _ Heq H); discriminate.
  - intros Hne. rewrite R; trivial.
  - unfold merge_same. run.
    rewrite (proj2 (Qeq_bool_iff (eps self) (eps self)) (Qeq_refl _)). cbn [negb].
    destruct (_n self =? 0)%nat.
    + intros H. apply merge_compress_exn in H. discriminate.
    + run. destruct (merge_compress [] self) as [[[]|x] s1] eqn:E; simpl.
      * destruct (synthetic_entries _ s1) as [extra|x] eqn:Es; simpl.
        -- intros H. apply merge_compress_exn in H. discriminate.
        -- intros [= ->]. apply synthetic_entries_exn in Es. discriminate.
      * intros [= ->].
        pose proof (merge_compress_exn [] self UnequalEpsilonException) as X.
        rewrite E in X. specialize (X eq_refl). discriminate.
Qed.

(** C7 at an empty sketch of precision 0.25 and a sketch of two values of
    precision 0.5. *)
Lemma merge_unequal_precision_witness :
  ~ (eps (init (1 # 4)) == eps two_values)%Q /\
  merge (init (1 # 4), two_values) =
  (Raise UnequalEpsilonException, (init (1 # 4), two_values)).
Proof.
  split; [discriminate|].
  apply (merge_unequal_precision (init (1 # 4)) two_values).
  discriminate.
Defined.

(** ** The aggregates across a merge *)

Lemma merge_compress_sum_avg (extra : list Entry) (s : GKArray) :
  _sum (snd (merge_compress extra s)) = _sum s /\
  _avg (snd (merge_compress extra s)) = _avg s.
Proof.
  destruct (merge_compress_cases extra s) as [[_ E]|[_ E]]; rewrite E;
    split; reflexivity.
Qed.

(** In the general case of [merge], lines 135-154, the sum and the mean
    of [self] are the ones it had before the call, whether the call
    returns or raises. *)
Lemma merge_general_sum_avg (s o : GKArray) :
  _n s <> 0%nat -> _n o <> 0%nat ->
  _sum (fst (snd (merge (s, o)))) = _sum s /\
  _avg (fst (snd (merge (s, o)))) = _avg s.
Proof.
  intros Hs Ho. apply Nat.eqb_neq in Hs, Ho. unfold merge. run.
  destruct (negb (Qeq_bool (eps s) (eps o))); [split; reflexivity|].
  rewrite Ho, Hs. run.
  destruct (merge_compress [] o) as [[[]|x] o1]; cbn [fst snd];
    [|split; reflexivity].
  destruct (synthetic_entries _ o1) as [extra|x]; cbn [fst snd];
    [|split; reflexivity].
  pose proof (merge_compress_sum_avg extra (widen o1 s)) as [E1 E2].
  destruct (merge_compress extra (widen o1 s)) as [r s1]. cbn [fst snd] in *.
  rewrite E1, E2. split; reflexivity.
Qed.

(** C5, refuted by the code.  The claim is that the general case of
    [merge] adds the counts, takes the larger precision, widens the
    extremes and combines the sums and the means of the two sketches.
    Through the interface the general case never gets that far: with one
    value in each of two sketches of precision 0.5 the call raises
    [AttributeError] in the compaction of [other] and the count of [self]
    stays 1.  And where the buffers are empty, so that the call returns,
    the count becomes 2 and the extremes 1 and 2, but the sum and the mean
    of [self] stay 1: lines 149-152 never assign [_sum] and [_avg], which
    the case of an empty [self] (lines 131-132) does copy. *)
Theorem merge_general_case_leaves_sum_and_mean :
  (let a := ingest [1%Q] (init half) in
   let b := ingest [2%Q] (init half) in
   merge (a, b) = (Raise AttributeError, (a, b)) /\ _n a = 1%nat) /\
  (let a := settled [1%Q] 1 1 1 in
   let b := settled [2%Q] 2 2 2 in
   let a' := fst (snd (merge (a, b))) in
   fst (merge (a, b)) = Ok tt /\
   _n a' = 2%nat /\ _min a' = Fin 1 /\ _max a' = Fin 2 /\
   entries a' = [mkEntry (Fin 1) 1 0; mkEntry (Fin 2) 1 0] /\
   _sum a = 1%Q /\ _sum b = 2%Q /\ _sum a' = 1%Q /\ _avg a' = _avg a).
Proof.
  split.
  - split; vm_compute; reflexivity.
  - repeat split; vm_compute; reflexivity.
Qed.

Section PendingQueries.

Variable percentile : list ext -> Q -> outcome number.

(** C6, refuted by the code.  The claim describes the answer of
    [quantile(q)] on every non-empty sketch that has reached the
    sketching size.  On every non-empty sketch built through the
    interface the call raises [AttributeError] before the scan: the
    buffer is never empty, and its compaction at line 167 fails.  (On a
    sketch whose buffer is empty the scan is the one described:
    [quantile_scan] and [scan_index_first].) *)
Theorem quantile_of_a_filled_sketch_raises :
  forall (s : GKArray) (q : Q),
    reachable percentile s -> _n s <> 0%nat -> out_of_range q = false ->
    quantile percentile q s = (Raise AttributeError, s).
Proof.
  intros s q Hr Hn Hq. apply quantile_pending; trivial.
  apply buffered_pending; trivial. eapply reachable_buffered, Hr.
Qed.

(** C8, refuted by the code.  The claim has two parts.  The first holds
    on every sketch built through the interface: [quantile(q)] returns
    NaN exactly when [q] is outside [0, 1] or the sketch is empty.  The
    second does not: on an empty sketch [quantiles] returns one NaN for
    each quantile asked for, but on a non-empty one it returns no list at
    all, it raises [AttributeError] in the compaction of line 198. *)
Theorem quantiles_of_a_filled_sketch_raises :
  forall s : GKArray,
    reachable percentile s ->
    (forall q, fst (quantile percentile q s) = Ok NaN <->
               out_of_range q = true \/ _n s = 0%nat) /\
    (forall qs, _n s = 0%nat ->
                quantiles percentile qs s = (Ok (map (fun _ => NaN) qs), s)) /\
    (forall qs, _n s <> 0%nat ->
                quantiles percentile qs s = (Raise AttributeError, s)).
Proof.
  intros s Hr. pose proof (reachable_buffered percentile s Hr) as Hs.
  split; [|split].
  - intros q. split.
    + intros H.
      destruct (out_of_range q) eqn:Hq; [left; trivial|].
      destruct (Nat.eq_dec (_n s) 0) as [E|E]; [right; trivial|].
      rewrite quantile_pending in H; trivial; [discriminate|].
      apply buffered_pending; trivial.
    + intros H. unfold quantile. run.
      destruct H as [-> | ->]; [reflexivity|].
      rewrite orb_true_r. reflexivity.
  - intros qs H0. unfold quantiles. run. rewrite H0. reflexivity.
  - intros qs Hn. apply quantiles_pending; trivial.
    apply buffered_pending; trivial.
Qed.

End PendingQueries.

Lemma reachable_two_values (percentile : list ext -> Q -> outcome number) :
  reachable percentile two_values.
Proof.
  unfold two_values, ingest. cbn [fold_left]. apply reach_add, reach_add, reach_init.
Qed.

(** C6 at the median of a sketch of precision 0.5 that holds two values,
    and so has reached the sketching size. *)
Lemma quantile_of_a_filled_sketch_raises_witness :
  reachable linear_percentile two_values /\
  _n two_values <> 0%nat /\ out_of_range half = false /\
  (1 / eps two_values <= countQ two_values)%Q /\
  quantile linear_percentile half two_values = (Raise AttributeError, two_values).
Proof.
  split; [apply reachable_two_values|].
  split; [discriminate|]. split; [reflexivity|]. split; [discriminate|].
  apply (quantile_of_a_filled_sketch_raises linear_percentile two_values half).
  - apply reachable_two_values.
  - discriminate.
  - reflexivity.
Defined.

(** C8 at the quantiles -1 and 0.5 of the same sketch. *)
Lemma quantiles_of_a_filled_sketch_raises_witness :
  reachable linear_percentile two_values /\
  quantiles linear_percentile [(-1)%Q; half] two_values
  = (Raise AttributeError, two_values).
Proof.
  split; [apply reachable_two_values|].
  apply (quantiles_of_a_filled_sketch_raises linear_percentile two_values
           (reachable_two_values linear_percentile)).
  discriminate.
Defined.

(** ** Order of the answers of quantile *)

Lemma in_range (q : Q) : (0 <= q)%Q -> (q <= 1)%Q -> out_of_range q = false.
Proof.
  intros H0 H1. unfold out_of_range.
  rewrite (proj2 (Qltb_ge q 0) H0), (proj2 (Qltb_ge 1 q) H1). reflexivity.
Qed.

Lemma rank_mono (s : GKArray) (q1 q2 : Q) :
  _n s <> 0%nat -> (0 <= q1)%Q -> (q1 <= q2)%Q -> rank s q1 <= rank s q2.
Proof.
  intros Hn H0 H12. unfold rank.
  assert (Hc : (0 <= inject_Z (count s - 1))%Q).
  { change 0%Q with (inject_Z 0). rewrite <- Zle_Qle. unfold count. lia. }
  apply py_int_mono.
  - apply (Qle_trans _ (0 + 1)); [discriminate|].
    apply Qplus_le_compat; [|apply Qle_refl].
    apply Qmult_le_0_compat; assumption.
  - apply Qplus_le_compat; [|apply Qle_refl].
    apply Qmult_le_compat_r; assumption.
Qed.

(** Below the sketching size [quantile] is the percentile of the values
    of the entries. *)
Lemma quantile_small (percentile : list ext -> Q -> outcome number)
  (q : Q) (s : GKArray) (limit : Q) :
  out_of_range q = false -> _n s <> 0%nat -> incoming s = [] ->
  py_div 1 (eps s) = Ok limit -> Qltb (countQ s) limit = true ->
  quantile percentile q s = (percentile (map val (entries s)) (q * 100)%Q, s).
Proof.
  intros Hq Hn Hin Hdiv Hsize. unfold quantile. run.
  rewrite Hq. apply Nat.eqb_neq in Hn. rewrite Hn. cbn [orb].
  destruct (flush_cases s) as [[_ E]|[E _]]; [|contradiction].
  rewrite E, Hdiv, Hsize. reflexivity.
Qed.

Section OrderOfAnswers.

Variable percentile : list ext -> Q -> outcome number.

(** C10, refuted by the code.  The claim is that on every sketch the
    answers of [quantile] are ordered as the quantiles asked for.  On a
    sketch built through the interface no two answers are in order.
    While the sketch holds values, [quantile] raises [AttributeError] for
    every [q] in [0, 1]: the values are in the buffer, and the compaction
    of line 167 takes them for entries.  While it is empty, the answer is
    NaN for every [q], and [NaN <= NaN] is false. *)
Theorem interface_sketches_do_not_answer_in_order :
  forall (s : GKArray) (q1 q2 : Q),
    reachable percentile s ->
    (0 <= q1)%Q -> (q1 < q2)%Q -> (q2 <= 1)%Q ->
    (_n s <> 0%nat ->
     quantile percentile q1 s = (Raise AttributeError, s) /\
     quantile percentile q2 s = (Raise AttributeError, s)) /\
    (_n s = 0%nat ->
     quantile percentile q1 s = (Ok NaN, s) /\
     quantile percentile q2 s = (Ok NaN, s)) /\
    ~ (exists x1 x2,
          fst (quantile percentile q1 s) = Ok x1 /\
          fst (quantile percentile q2 s) = Ok x2 /\
          number_leb x1 x2 = true) /\
    ~ monotone_on percentile s.
Proof.
  intros s q1 q2 R H0 H12 H1.
  pose proof (reachable_buffered percentile s R) as B.
  assert (Hq1 : out_of_range q1 = false).
  { apply in_range; trivial.
    apply Qlt_le_weak. eapply Qlt_le_trans; eassumption. }
  assert (Hq2 : out_of_range q2 = false).
  { apply in_range; trivial.
    apply Qlt_le_weak. eapply Qle_lt_trans; eassumption. }
  assert (Filled : _n s <> 0%nat ->
                   quantile percentile q1 s = (Raise AttributeError, s) /\
                   quantile percentile q2 s = (Raise AttributeError, s)).
  { intros Hn. pose proof (buffered_pending s B Hn) as P.
    split; apply quantile_pending; assumption. }
  assert (Empty : _n s = 0%nat ->
                  quantile percentile q1 s = (Ok NaN, s) /\
                  quantile percentile q2 s = (Ok NaN, s)).
  { intros Hn. unfold quantile. run. rewrite Hn, Hq1, Hq2. split; reflexivity. }
  assert (Unordered : ~ (exists x1 x2,
                            fst (quantile percentile q1 s) = Ok x1 /\
                            fst (quantile percentile q2 s) = Ok x2 /\
                            number_leb x1 x2 = true)).
  { intros (x1 & x2 & E1 & E2 & Hle).
    destruct (Nat.eq_dec (_n s) 0) as [Hn|Hn].
    - destruct (Empty Hn) as [A1 A2]. rewrite A1 in E1. rewrite A2 in E2.
      cbn [fst] in E1, E2. injection E1 as <-. discriminate.
    - destruct (Filled Hn) as [A1 _]. rewrite A1 in E1. discriminate. }
  split; [exact Filled|]. split; [exact Empty|]. split; [exact Unordered|].
  intros M. apply Unordered. apply (M q1 q2); assumption.
Qed.

(** X24.  The answers of the scan are in order.  On a sketch that holds
    values, has nothing in its buffer, a precision in (0, 1] and has
    reached the sketching size, with its entries in ascending order from
    the minimum on, [quantile] returns for every [q] in [0, 1] and, for
    [q1 <= q2], the answer for [q1] is at most the answer for [q2]: the
    rank grows with [q], the scan stops no earlier for a larger bound,
    and the entries are in order. *)
Theorem scan_answers_are_ordered :
  forall (s : GKArray) (q1 q2 : Q),
    _n s <> 0%nat ->
    incoming s = [] ->
    (0 < eps s)%Q -> (eps s <= 1)%Q -> (1 / eps s <= countQ s)%Q ->
    ascending_from (_min s) (entries s) = true ->
    (0 <= q1)%Q -> (q1 <= q2)%Q -> (q2 <= 1)%Q ->
    exists x1 x2,
      quantile percentile q1 s = (Ok (Num x1), s) /\
      quantile percentile q2 s = (Ok (Num x2), s) /\
      le x1 x2.
Proof.
  intros s q1 q2 Hn Hin Hpos _ Hbig Hasc H0 H12 H1.
  assert (Hdiv : py_div 1 (eps s) = Ok (1 / eps s)%Q).
  { unfold py_div. destruct (Qeq_bool (eps s) 0) eqn:E; trivial.
    apply Qeq_bool_iff in E. rewrite E in Hpos. discriminate. }
  assert (Hsize : Qltb (countQ s) (1 / eps s) = false).
  { apply Qltb_ge. exact Hbig. }
  assert (Hq1 : out_of_range q1 = false).
  { apply in_range; trivial. eapply Qle_trans; eassumption. }
  assert (Hq2 : out_of_range q2 = false).
  { apply in_range; trivial. eapply Qle_trans; eassumption. }
  rewrite (quantile_scan percentile q1 s _ Hq1 Hn Hin Hdiv Hsize).
  rewrite (quantile_scan percentile q2 s _ Hq2 Hn Hin Hdiv Hsize).
  eexists. eexists. split; [reflexivity|]. split; [reflexivity|].
  apply picked_mono; trivial.
  apply scan_index_mono.
  pose proof (rank_mono s q1 q2 Hn H0 H12). lia.
Qed.

End OrderOfAnswers.

(** C10 at the quartiles of a sketch of precision 0.5 that holds two
    values. *)
Lemma interface_sketches_do_not_answer_in_order_witness :
  (reachable linear_percentile two_values /\
   (0 <= 1 # 4)%Q /\ (1 # 4 < 3 # 4)%Q /\ (3 # 4 <= 1)%Q /\
   _n two_values <> 0%nat) /\
  quantile linear_percentile (1 # 4) two_values
  = (Raise AttributeError, two_values) /\
  quantile linear_percentile (3 # 4) two_values
  = (Raise AttributeError, two_values).
Proof.
  assert (N : _n two_values <> 0%nat) by discriminate.
  split.
  - split; [apply reachable_two_values|].
    split; [discriminate|]. split; [reflexivity|]. split; [discriminate|exact N].
  - apply (interface_sketches_do_not_answer_in_order linear_percentile
             two_values (1 # 4) (3 # 4));
      [apply reachable_two_values|discriminate|reflexivity|discriminate|exact N].
Defined.

(** X24 at the quantiles 0 and 0.5 of a sketch of precision 0.5 with the
    entries 1, 2, 3 and 4, whose answers are 3 and 4. *)
Lemma scan_answers_are_ordered_witness :
  let s := settled [1%Q; 2%Q; 3%Q; 4%Q] 1 4 10 in
  (_n s <> 0%nat /\ incoming s = [] /\ (0 < eps s)%Q /\ (eps s <= 1)%Q /\
   (1 / eps s <= countQ s)%Q /\
   ascending_from (_min s) (entries s) = true /\
   (0 <= 0)%Q /\ (0 <= half)%Q /\ (half <= 1)%Q) /\
  quantile linear_percentile 0 s = (Ok (Num (Fin 3)), s) /\
  quantile linear_percentile half s = (Ok (Num (Fin 4)), s) /\
  exists x1 x2,
    quantile linear_percentile 0 s = (Ok (Num x1), s) /\
    quantile linear_percentile half s = (Ok (Num x2), s) /\
    le x1 x2.
Proof.
  cbn zeta. split; [repeat split; try reflexivity; discriminate|].
  split; [vm_compute; reflexivity|]. split; [vm_compute; reflexivity|].
  apply (scan_answers_are_ordered linear_percentile
           (settled [1%Q; 2%Q; 3%Q; 4%Q] 1 4 10) 0 half);
    try reflexivity; discriminate.
Defined.

(** ** The answers of quantiles on a sketch with an empty buffer *)

Lemma answers_match_app (qs1 qs2 : list Q) (xs1 xs2 : list number) :
  answers_match qs1 xs1 -> answers_match qs2 xs2 ->
  answers_match (qs1 ++ qs2) (xs1 ++ xs2).
Proof. apply Forall2_app. Qed.

Lemma answer_at_match (s : GKArray) (level : Z) (prev : ext) (qs : list Q) :
  forall out left,
    answer_at s level prev qs = (out, left) ->
    exists done, qs = done ++ left /\ answers_match done out.
Proof.
  induction qs as [|q qs IH]; intros out left H; simpl in H.
  - injection H as <- <-. exists []. split; [reflexivity|constructor].
  - destruct (out_of_range q) eqn:Hq.
    + destruct (answer_at s level prev qs) as [o l].
      injection H as <- <-.
      destruct (IH o l eq_refl) as (done & -> & Hm).
      exists (q :: done). split; [reflexivity|].
      constructor; trivial. rewrite Hq. split; reflexivity.
    + destruct (rank s q + spread_of s <? level).
      * destruct (answer_at s level prev qs) as [o l].
        injection H as <- <-.
        destruct (IH o l eq_refl) as (done & -> & Hm).
        exists (q :: done). split; [reflexivity|].
        constructor; trivial. rewrite Hq. split; discriminate.
      * injection H as <- <-. exists []. split; [reflexivity|constructor].
Qed.

Lemma tail_answers_match (top : ext) (qs : list Q) :
  answers_match qs (map (fun q => if out_of_range q then NaN else Num top) qs).
Proof.
  induction qs as [|q qs IH]; simpl; constructor; trivial.
  destruct (out_of_range q); split; trivial; discriminate.
Qed.

(** The co-scan answers every quantile at its position. *)
Lemma coscan_match (s : GKArray) (ents : list Entry) :
  forall prev g0 qs, answers_match qs (coscan s prev g0 ents qs).
Proof.
  induction ents as [|e rest IH]; intros prev g0 qs.
  - destruct qs; apply tail_answers_match.
  - destruct qs as [|q qs]; [apply tail_answers_match|].
    cbn [coscan].
    destruct (answer_at s (g0 + g e + delta e - 1) prev (q :: qs)) as [out left] eqn:E.
    destruct (answer_at_match _ _ _ _ _ _ E) as (done & -> & Hm).
    apply answers_match_app; trivial.
Qed.

Section SettledQueries.

Variable percentile : list ext -> Q -> outcome number.

(** On a sketch with an empty buffer that has reached the sketching size,
    [quantiles] returns, leaves the sketch as it is, and answers every
    quantile at its position, with NaN exactly for those outside [0, 1]. *)
Lemma quantiles_settled (s : GKArray) (qs : list Q) :
  _n s <> 0%nat -> incoming s = [] ->
  (0 < eps s)%Q -> (1 / eps s <= countQ s)%Q ->
  exists xs, quantiles percentile qs s = (Ok xs, s) /\ answers_match qs xs.
Proof.
  intros Hn Hin Hpos Hsize.
  assert (Hdiv : py_div 1 (eps s) = Ok (1 / eps s)%Q).
  { unfold py_div. destruct (Qeq_bool (eps s) 0) eqn:E; trivial.
    apply Qeq_bool_iff in E. rewrite E in Hpos. discriminate. }
  assert (Hbig : Qltb (countQ s) (1 / eps s) = false).
  { apply Qltb_ge. exact Hsize. }
  assert (Each : forall l, exists xs,
             mapM (quantile percentile) l s = (Ok xs, s) /\ answers_match l xs).
  { induction l as [|q l (xs & E & Hm)].
    - exists []. split; [reflexivity|constructor].
    - destruct (out_of_range q) eqn:Hq.
      + exists (NaN :: xs). split.
        * cbn [mapM]. unfold bind at 1.
          replace (quantile percentile q s) with (@Ok number NaN, s).
          -- unfold bind. rewrite E. reflexivity.
          -- unfold quantile. run. rewrite Hq. reflexivity.
        * constructor; trivial. rewrite Hq. split; reflexivity.
      + eexists (Num _ :: xs). split.
        * cbn [mapM]. unfold bind at 1.
          rewrite (quantile_scan percentile q s _ Hq Hn Hin Hdiv Hbig).
          unfold bind. rewrite E. reflexivity.
        * constructor; trivial. rewrite Hq. split; discriminate. }
  unfold quantiles. run.
  apply Nat.eqb_neq in Hn. rewrite Hn.
  destruct (flush_cases s) as [[_ E]|[E _]]; [|contradiction].
  rewrite E, Hdiv, Hbig.
  destruct (negb (list_Qeqb qs (sorted_q qs))).
  - apply Each.
  - eexists. split; [reflexivity|]. apply coscan_match.
Qed.

End SettledQueries.

(** ** Traces on small inputs *)

(** The sweep of lines 76-106 with threshold 2: the incoming entry 1 is
    absorbed by the entry 2, the entries 2 and 3 are kept, and the incoming
    entry 4 is appended once the entries are used up. *)
Example sweep_absorbs_and_appends :
  sweep_loop 4 2 [mkEntry (Fin 1) 1 0; mkEntry (Fin 4) 1 0]
                 [mkEntry (Fin 2) 1 0; mkEntry (Fin 3) 1 0] []
  = [mkEntry (Fin 2) 2 0; mkEntry (Fin 3) 1 0; mkEntry (Fin 4) 1 0].
Proof. reflexivity. Qed.

(** Line 97: an incoming entry that is kept in front of an entry takes
    [g + delta] of that entry, less its own [g], as its [delta]. *)
Example sweep_sets_delta :
  sweep_loop 2 0 [mkEntry (Fin 1) 1 0] [mkEntry (Fin 2) 1 3] []
  = [mkEntry (Fin 1) 1 3; mkEntry (Fin 2) 1 3].
Proof. reflexivity. Qed.

(** Lines 135-147 on the entries [(2, 2, 0); (3, 1, 0)] of a sketch of three
    values and precision 0.5: the spread is 1, the entry anchored at the
    minimum has [g = 0] and is left out. *)
Example synthetic_entries_of_three_values :
  synthetic_entries 1
    (mkGKArray half [mkEntry (Fin 2) 2 0; mkEntry (Fin 3) 1 0] []
               (Fin 1) (Fin 3) 3 6 2)
  = Ok [mkEntry (Fin 2) 1 0; mkEntry (Fin 3) 2 0].
Proof. reflexivity. Qed.

(** [quantile(0.5)] on the entries 1 and 2 of a sketch of two values: the
    rank is 1, the spread 0, no entry exceeds the bound and the value of
    the last entry is returned. *)
Example quantile_of_two_entries :
  quantile linear_percentile half (settled [1%Q; 2%Q] 1 2 3)
  = (Ok (Num (Fin 2)), settled [1%Q; 2%Q] 1 2 3).
Proof. vm_compute. reflexivity. Qed.

(** [quantiles([-1, 0, 0.5, 2])] on the entries 1 to 4 of a sketch of four
    values: the spread is 1; the quantile 0 is answered at the fourth
    entry by the value of the third, the quantile 0.5 by the maximum. *)
Example quantiles_of_four_entries :
  fst (quantiles linear_percentile [(-1)%Q; 0%Q; half; 2%Q]
         (settled [1%Q; 2%Q; 3%Q; 4%Q] 1 4 10))
  = Ok [NaN; Num (Fin 3); Num (Fin 4); NaN].
Proof. vm_compute. reflexivity. Qed.

(** Below the sketching size the percentile of numpy answers: the median
    of the values 1 and 2 of a sketch of precision 0.25. *)
Example quantile_below_the_sketching_size :
  exists x : Q,
    fst (quantile linear_percentile half
           (mkGKArray (1 # 4) [mkEntry (Fin 1) 1 0; mkEntry (Fin 2) 1 0] []
                      (Fin 1) (Fin 2) 2 3 (3 # 2)))
    = Ok (Num (Fin x)) /\ (x == 3 # 2)%Q.
Proof. eexists. split; [vm_compute; reflexivity|reflexivity]. Qed.

(** The sketch [three_values] is the one the calls [add(0); size();
    add(26); add(7)] lead to, and [one_value] the one [add(1000); size()]
    leads to, when the compactions that [size] and the third [add] ask
    for are those of section 4.2 of the specification. *)
Example three_values_by_the_specified_compaction :
  let flush s := snd (merge_compress_as_specified [] s) in
  let s := flush (add_aggregates 7 (add_aggregates 26
                    (flush (add_aggregates 0 (init half))))) in
  let s1 := flush (add_aggregates 1000 (init half)) in
  due (add_aggregates 7 (add_aggregates 26 (flush (add_aggregates 0 (init half))))) /\
  entries s = entries three_values /\ incoming s = incoming three_values /\
  _n s = _n three_values /\ _min s = _min three_values /\
  _max s = _max three_values /\
  entries s1 = entries one_value /\ incoming s1 = incoming one_value /\
  _n s1 = _n one_value.
Proof.
  cbn zeta. split.
  - exists 3. split; vm_compute; reflexivity.
  - repeat split; vm_compute; reflexivity.
Qed.

(** * Further properties of the operations *)

(** ** What a compaction does to the entries *)

Lemma length_insert_by_val (e : Entry) (l : list Entry) :
  length (insert_by_val e l) = S (length l).
Proof.
  induction l as [|x l IH]; simpl; trivial.
  destruct (ltb (val x) (val e)); simpl; congruence.
Qed.

Lemma length_isort (l : list Entry) : length (isort l) = length l.
Proof.
  induction l as [|e l IH]; simpl; trivial.
  rewrite length_insert_by_val, IH. reflexivity.
Qed.

Lemma In_insert_by_val (e x : Entry) (l : list Entry) :
  In x (insert_by_val e l) <-> x = e \/ In x l.
Proof.
  induction l as [|y l IH]; simpl.
  - intuition congruence.
  - destruct (ltb (val y) (val e)); simpl; rewrite ?IH; intuition congruence.
Qed.

Lemma In_isort (x : Entry) (l : list Entry) : In x (isort l) <-> In x l.
Proof.
  induction l as [|e l IH]; simpl; [tauto|].
  rewrite In_insert_by_val, IH. intuition congruence.
Qed.

Lemma length_compress_tail (t : Z) (rest : list Entry) :
  forall e, (1 <= length (compress_tail t e rest) <= S (length rest))%nat.
Proof.
  induction rest as [|e' rest IH]; intros e; simpl; [lia|].
  destruct (removable t e e'); simpl.
  - specialize (IH (absorb e e')). lia.
  - specialize (IH e'). lia.
Qed.

Lemma length_sweep (t : Z) (inc : list Entry) :
  forall e ent,
    (1 <= length (sweep t inc e ent) <= length inc + S (length ent))%nat.
Proof.
  induction inc as [|x inc IH]; intros e ent.
  - simpl. apply length_compress_tail.
  - revert e. induction ent as [|e' ent IHent]; intros e; cbn [sweep];
      destruct (ltb (val x) (val e)).
    + destruct (removable t x e); cbn [length].
      * specialize (IH (absorb x e) []). simpl in *. lia.
      * specialize (IH e []). simpl in *. lia.
    + cbn [length]. pose proof (length_compress_tail t inc x). lia.
    + destruct (removable t x e); cbn [length].
      * specialize (IH (absorb x e) (e' :: ent)). simpl in *. lia.
      * specialize (IH e (e' :: ent)). simpl in *. lia.
    + destruct (removable t e e'); cbn [length].
      * specialize (IHent (absorb e e')). simpl in *. lia.
      * specialize (IHent e'). simpl in *. lia.
Qed.

Lemma length_merge_lists (t : Z) (inc ent : list Entry) :
  (length (merge_lists t inc ent) <= length inc + length ent)%nat /\
  (inc ++ ent <> [] -> merge_lists t inc ent <> []).
Proof.
  unfold merge_lists. destruct ent as [|e ent].
  - destruct inc as [|x inc]; simpl; [split; [lia|congruence]|].
    pose proof (length_compress_tail t inc x) as H. split; [lia|].
    intros _ E. rewrite E in H. simpl in H. lia.
  - pose proof (length_sweep t inc e ent) as H. simpl. split; [lia|].
    intros _ E. rewrite E in H. simpl in H. lia.
Qed.

(** Every entry of the list built has the value of an entry that went in. *)
Lemma vals_compress_tail (t : Z) (rest : list Entry) :
  forall e y, In y (compress_tail t e rest) -> In (val y) (map val (e :: rest)).
Proof.
  induction rest as [|e' rest IH]; intros e y; cbn [compress_tail].
  - intros [<-|[]]. left. reflexivity.
  - destruct (removable t e e').
    + intros H. apply IH in H. right. exact H.
    + intros [<-|H]; [left; reflexivity|]. right. apply IH. exact H.
Qed.

Lemma vals_sweep (t : Z) (inc : list Entry) :
  forall e ent y,
    In y (sweep t inc e ent) ->
    In (val y) (map val inc) \/ In (val y) (map val (e :: ent)).
Proof.
  induction inc as [|x inc IH]; intros e ent y.
  - simpl. intros H. right. apply (vals_compress_tail t ent e y H).
  - revert e. induction ent as [|e' ent IHent]; intros e; cbn [sweep];
      destruct (ltb (val x) (val e)).
    + destruct (removable t x e).
      * intros H. apply IH in H. destruct H as [H|H]; [left; right; exact H|].
        right. exact H.
      * intros [<-|H]; [left; left; reflexivity|].
        apply IH in H. destruct H as [H|H]; [left; right; exact H|right; exact H].
    + intros [<-|H]; [right; left; reflexivity|].
      left. apply (vals_compress_tail t inc x y H).
    + destruct (removable t x e).
      * intros H. apply IH in H. destruct H as [H|H]; [left; right; exact H|].
        right. exact H.
      * intros [<-|H]; [left; left; reflexivity|].
        apply IH in H. destruct H as [H|H]; [left; right; exact H|right; exact H].
    + destruct (removable t e e').
      * intros H. apply IHent in H. destruct H as [H|H]; [left; exact H|].
        right. right. exact H.
      * intros [<-|H]; [right; left; reflexivity|].
        apply IHent in H. destruct H as [H|H]; [left; exact H|].
        right. right. exact H.
Qed.

Lemma vals_merge_lists (t : Z) (inc ent : list Entry) (y : Entry) :
  In y (merge_lists t inc ent) ->
  exists x, In x (ent ++ inc) /\ val y = val x.
Proof.
  intros H.
  assert (V : In (val y) (map val (ent ++ inc))).
  { rewrite map_app. apply in_or_app. unfold merge_lists in H.
    destruct ent as [|e ent].
    - destruct inc as [|x inc]; [destruct H|].
      right. apply (vals_compress_tail t inc x y H).
    - apply vals_sweep in H. tauto. }
  apply in_map_iff in V. destruct V as (x & E & Hx). exists x. split; congruence.
Qed.

(** In sorted lists an entry is absorbed by an entry of a value at least
    its own, so every value that went in lies at or below the value of an
    entry of the list built. *)
Lemma cover_compress_tail (t : Z) (rest : list Entry) :
  forall low e v,
    ascending_from low (e :: rest) = true ->
    In v (map val (e :: rest)) ->
    exists y, In y (compress_tail t e rest) /\ le v (val y).
Proof.
  induction rest as [|e' rest IH]; intros low e v Hasc Hv.
  - destruct Hv as [<-|[]]. exists e. split; [left; reflexivity|apply ext_le_refl].
  - apply ascending_from_cons in Hasc. destruct Hasc as [Hlow Hasc].
    pose proof Hasc as Hasc'.
    apply ascending_from_cons in Hasc'. destruct Hasc' as [Hee' Hrest].
    cbn [compress_tail]. destruct (removable t e e').
    + assert (A : ascending_from (val e) (absorb e e' :: rest) = true).
      { apply ascending_from_cons. split; trivial. }
      destruct Hv as [<-|Hv].
      * destruct (IH (val e) (absorb e e') (val e') A) as (y & Hy & Hle);
          [left; reflexivity|].
        exists y. split; trivial. eapply ext_le_trans; eassumption.
      * apply (IH (val e) (absorb e e') v A). exact Hv.
    + destruct Hv as [<-|Hv].
      * exists e. split; [left; reflexivity|apply ext_le_refl].
      * destruct (IH (val e) e' v Hasc Hv) as (y & Hy & Hle).
        exists y. split; [right; exact Hy|exact Hle].
Qed.

Lemma cover_sweep (t : Z) (inc : list Entry) :
  forall low e ent v,
    ascending_from low inc = true ->
    ascending_from low (e :: ent) = true ->
    In v (map val inc) \/ In v (map val (e :: ent)) ->
    exists y, In y (sweep t inc e ent) /\ le v (val y).
Proof.
  induction inc as [|x inc IH]; intros low e ent v Hinc Hent Hv.
  - simpl. destruct Hv as [[]|Hv]. eapply cover_compress_tail; eassumption.
  - apply ascending_from_cons in Hinc. destruct Hinc as [Hx Hinc].
    assert (Hinc' : ascending_from low inc = true).
    { apply ascending_from_weaken with (low := val x); assumption. }
    revert low e v Hx Hinc' Hent Hv.
    induction ent as [|e' ent IHent]; intros low e v Hx Hinc' Hent Hv;
      pose proof Hent as Hent0;
      apply ascending_from_cons in Hent; destruct Hent as [He Hent];
      cbn [sweep]; destruct (ltb (val x) (val e)) eqn:Hlt.
    + (* the incoming entry first, no entry behind the current one *)
      destruct (removable t x e).
      * assert (A : ascending_from low (absorb x e :: []) = true).
        { apply ascending_from_cons. split; trivial. }
        destruct Hv as [[<-|Hv]|Hv].
        -- destruct (IH low (absorb x e) [] (val e) Hinc' A) as (y & Hy & Hle);
             [right; left; reflexivity|].
           exists y. split; trivial.
           eapply ext_le_trans; [apply ext_ltb_le; exact Hlt|exact Hle].
        -- apply (IH low (absorb x e) [] v Hinc' A). left. exact Hv.
        -- apply (IH low (absorb x e) [] v Hinc' A). right. exact Hv.
      * destruct Hv as [[<-|Hv]|Hv].
        -- eexists. split; [left; reflexivity|apply ext_le_refl].
        -- destruct (IH low e [] v Hinc' Hent0) as (y & Hy & Hle); [left; exact Hv|].
           exists y. split; [right; exact Hy|exact Hle].
        -- destruct (IH low e [] v Hinc' Hent0) as (y & Hy & Hle); [right; exact Hv|].
           exists y. split; [right; exact Hy|exact Hle].
    + (* the current entry first, and it is the last *)
      destruct Hv as [Hv|[<-|[]]].
      * assert (A : ascending_from low (x :: inc) = true).
        { apply ascending_from_cons. split; trivial. }
        destruct (cover_compress_tail t inc low x v A Hv) as (y & Hy & Hle).
        exists y. split; [right; exact Hy|exact Hle].
      * exists e. split; [left; reflexivity|apply ext_le_refl].
    + (* the incoming entry first *)
      destruct (removable t x e).
      * assert (A : ascending_from low (absorb x e :: e' :: ent) = true).
        { apply ascending_from_cons. split; trivial. }
        destruct Hv as [[<-|Hv]|Hv].
        -- destruct (IH low (absorb x e) (e' :: ent) (val e) Hinc' A)
             as (y & Hy & Hle); [right; left; reflexivity|].
           exists y. split; trivial.
           eapply ext_le_trans; [apply ext_ltb_le; exact Hlt|exact Hle].
        -- apply (IH low (absorb x e) (e' :: ent) v Hinc' A). left. exact Hv.
        -- apply (IH low (absorb x e) (e' :: ent) v Hinc' A). right. exact Hv.
      * destruct Hv as [[<-|Hv]|Hv].
        -- eexists. split; [left; reflexivity|apply ext_le_refl].
        -- destruct (IH low e (e' :: ent) v Hinc' Hent0) as (y & Hy & Hle);
             [left; exact Hv|].
           exists y. split; [right; exact Hy|exact Hle].
        -- destruct (IH low e (e' :: ent) v Hinc' Hent0) as (y & Hy & Hle);
             [right; exact Hv|].
           exists y. split; [right; exact Hy|exact Hle].
    + (* the current entry first *)
      pose proof Hent as Hent'.
      apply ascending_from_cons in Hent'. destruct Hent' as [Hee' Hrest].
      destruct (removable t e e').
      * assert (A : ascending_from low (absorb e e' :: ent) = true).
        { apply ascending_from_cons. split; trivial.
          simpl. eapply ext_le_trans; eassumption. }
        destruct Hv as [Hv|[<-|Hv]].
        -- apply (IHent low (absorb e e') v Hx Hinc' A). left. exact Hv.
        -- destruct (IHent low (absorb e e') (val e') Hx Hinc' A)
             as (y & Hy & Hle); [right; left; reflexivity|].
           exists y. split; trivial. eapply ext_le_trans; eassumption.
        -- apply (IHent low (absorb e e') v Hx Hinc' A). right. exact Hv.
      * assert (A : ascending_from low (e' :: ent) = true).
        { apply ascending_from_weaken with (low := val e); assumption. }
        destruct Hv as [Hv|[<-|Hv]].
        -- destruct (IHent low e' v Hx Hinc' A) as (y & Hy & Hle); [left; exact Hv|].
           exists y. split; [right; exact Hy|exact Hle].
        -- exists e. split; [left; reflexivity|apply ext_le_refl].
        -- destruct (IHent low e' v Hx Hinc' A) as (y & Hy & Hle); [right; exact Hv|].
           exists y. split; [right; exact Hy|exact Hle].
Qed.

Lemma cover_merge_lists (t : Z) (inc ent : list Entry) (x : Entry) :
  ascending inc = true -> ascending ent = true ->
  In x (ent ++ inc) ->
  exists y, In y (merge_lists t inc ent) /\ le (val x) (val y).
Proof.
  intros Hinc Hent Hx. apply in_app_or in Hx.
  unfold merge_lists. destruct ent as [|e ent].
  - destruct Hx as [[]|Hx]. destruct inc as [|x0 inc]; [destruct Hx|].
    apply (cover_compress_tail t inc NegInf x0 (val x) Hinc).
    apply in_map. exact Hx.
  - apply (cover_sweep t inc NegInf e ent (val x) Hinc Hent).
    destruct Hx as [Hx|Hx]; [right|left]; apply in_map; exact Hx.
Qed.

(** A property of entries that absorbing and appending keep is kept by
    the whole sweep. *)
Section Kept.

Variable t : Z.
Variable P : Entry -> Prop.
Hypothesis P_absorb :
  forall e e', P e -> P e' -> removable t e e' = true -> P (absorb e e').
Hypothesis P_emit :
  forall x e, P x -> P e -> removable t x e = false ->
              P (mkEntry (val x) (g x) (g e + delta e - g x)).

Lemma kept_compress_tail (rest : list Entry) :
  forall e, P e -> Forall P rest -> Forall P (compress_tail t e rest).
Proof.
  induction rest as [|e' rest IH]; intros e He Hrest; cbn [compress_tail].
  - constructor; [exact He|constructor].
  - inversion Hrest as [|? ? He' Hrest']; subst.
    destruct (removable t e e') eqn:R.
    + apply IH; [apply P_absorb; assumption|assumption].
    + constructor; [exact He|apply IH; assumption].
Qed.

Lemma kept_sweep (inc : list Entry) :
  forall e ent, Forall P inc -> P e -> Forall P ent -> Forall P (sweep t inc e ent).
Proof.
  induction inc as [|x inc IH]; intros e ent Hinc He Hent.
  - simpl. apply kept_compress_tail; assumption.
  - inversion Hinc as [|? ? Hx Hinc']; subst.
    revert e He. induction Hent as [|e' ent He' Hent IHent]; intros e He;
      cbn [sweep]; destruct (ltb (val x) (val e)).
    + destruct (removable t x e) eqn:R.
      * apply IH; [assumption|apply P_absorb; assumption|constructor].
      * constructor; [apply P_emit; assumption|].
        apply IH; [assumption|assumption|constructor].
    + constructor; [exact He|apply kept_compress_tail; assumption].
    + destruct (removable t x e) eqn:R.
      * apply IH; [assumption|apply P_absorb; assumption|constructor; assumption].
      * constructor; [apply P_emit; assumption|].
        apply IH; [assumption|assumption|constructor; assumption].
    + destruct (removable t e e') eqn:R.
      * apply IHent. apply P_absorb; assumption.
      * constructor; [exact He|apply IHent; exact He'].
Qed.

Lemma kept_merge_lists (inc ent : list Entry) :
  Forall P inc -> Forall P ent -> Forall P (merge_lists t inc ent).
Proof.
  intros Hinc Hent. unfold merge_lists. destruct ent as [|e ent].
  - destruct inc as [|x inc]; [constructor|].
    inversion Hinc; subst. apply kept_compress_tail; assumption.
  - inversion Hent; subst. apply kept_sweep; assumption.
Qed.

End Kept.

Lemma Forall_isort (P : Entry -> Prop) (l : list Entry) :
  Forall P l -> Forall P (isort l).
Proof.
  rewrite !Forall_forall. intros H x Hx. apply H, In_isort, Hx.
Qed.

Lemma entries_flushed (extra : list Entry) (s : GKArray) :
  incoming s = [] ->
  entries (snd (merge_compress extra s))
  = merge_lists (removal_threshold s) (isort extra) (entries s).
Proof.
  intros H. rewrite (merge_compress_flushed extra s H). reflexivity.
Qed.

(** X1.  A compaction of a sketch whose buffer is empty returns; the
    entries it leaves carry the rank mass of the entries before and of the
    extra entries together, the buffer stays empty, and the precision, the
    count, the sum, the mean and the extremes are as before. *)
Theorem compaction_keeps_the_rank_mass :
  forall (s : GKArray) (extra : list Entry),
    incoming s = [] ->
    exists s',
      merge_compress extra s = (Ok tt, s') /\
      sum_g (entries s') = sum_g (entries s) + sum_g extra /\
      incoming s' = [] /\
      eps s' = eps s /\ _n s' = _n s /\ _sum s' = _sum s /\ _avg s' = _avg s /\
      _min s' = _min s /\ _max s' = _max s.
Proof.
  intros s extra H. eexists. split; [apply merge_compress_flushed; exact H|].
  fields. rewrite sum_g_merge_lists, sum_g_isort.
  repeat split; try reflexivity. apply Z.add_comm.
Qed.

Lemma compaction_keeps_the_rank_mass_witness :
  let s := settled [1%Q; 2%Q; 3%Q] 1 3 6 in
  let extra := [mkEntry (Fin 5) 2 0; mkEntry (Fin 0) 1 0] in
  incoming s = [] /\
  exists s',
    merge_compress extra s = (Ok tt, s') /\
    sum_g (entries s') = sum_g (entries s) + sum_g extra /\
    incoming s' = [] /\
    eps s' = eps s /\ _n s' = _n s /\ _sum s' = _sum s /\ _avg s' = _avg s /\
    _min s' = _min s /\ _max s' = _max s.
Proof.
  split; [reflexivity|].
  apply (compaction_keeps_the_rank_mass
           (settled [1%Q; 2%Q; 3%Q] 1 3 6)
           [mkEntry (Fin 5) 2 0; mkEntry (Fin 0) 1 0]).
  reflexivity.
Defined.

(** X2.  A compaction of a sketch whose buffer is empty and whose entries
    are in ascending order of value leaves the entries in ascending order,
    whatever the order of the extra entries. *)
Theorem compaction_keeps_the_order :
  forall (s : GKArray) (extra : list Entry),
    incoming s = [] -> ascending (entries s) = true ->
    ascending (entries (snd (merge_compress extra s))) = true.
Proof.
  intros s extra H Hasc. rewrite (entries_flushed extra s H).
  apply ascending_merge_lists; [apply ascending_isort|exact Hasc].
Qed.

Lemma compaction_keeps_the_order_witness :
  let s := settled [1%Q; 2%Q; 3%Q] 1 3 6 in
  let extra := [mkEntry (Fin 5) 2 0; mkEntry (Fin 0) 1 0] in
  (incoming s = [] /\ ascending (entries s) = true /\ ascending extra = false) /\
  ascending (entries (snd (merge_compress extra s))) = true.
Proof.
  split; [repeat split; reflexivity|].
  apply (compaction_keeps_the_order
           (settled [1%Q; 2%Q; 3%Q] 1 3 6)
           [mkEntry (Fin 5) 2 0; mkEntry (Fin 0) 1 0]); reflexivity.
Defined.

(** X3.  A compaction of a sketch whose buffer is empty invents no entry:
    it leaves at most as many entries as it was given, at least one if it
    was given any; the value of every entry it leaves is the value of an
    entry it was given; and if every entry it was given stands for at
    least one value, so does every entry it leaves. *)
Theorem compaction_invents_no_entry :
  forall (s : GKArray) (extra : list Entry),
    incoming s = [] ->
    let left := entries (snd (merge_compress extra s)) in
    (length left <= length (entries s) + length extra)%nat /\
    (entries s ++ extra <> [] -> left <> []) /\
    (forall y, In y left ->
               exists x, In x (entries s ++ extra) /\ val y = val x) /\
    ((forall x, In x (entries s ++ extra) -> 0 < g x) ->
     forall y, In y left -> 0 < g y).
Proof.
  intros s extra H left. subst left. rewrite (entries_flushed extra s H).
  destruct (length_merge_lists (removal_threshold s) (isort extra) (entries s))
    as [Hlen Hne].
  rewrite length_isort in Hlen.
  split; [lia|]. split; [|split].
  - intros Hin. apply Hne. intros Heq. apply app_eq_nil in Heq.
    destruct Heq as [Hx He]. apply Hin. rewrite He.
    assert (L : length (isort extra) = 0%nat) by (rewrite Hx; reflexivity).
    rewrite length_isort in L. destruct extra; [reflexivity|discriminate].
  - intros y Hy. apply vals_merge_lists in Hy. destruct Hy as (x & Hx & Hv).
    exists x. split; [|exact Hv].
    apply in_app_or in Hx. apply in_or_app.
    destruct Hx as [Hx|Hx]; [left; exact Hx|right; apply In_isort; exact Hx].
  - intros Hpos. apply Forall_forall.
    apply kept_merge_lists.
    + intros e e' He He' _. unfold absorb. simpl. lia.
    + intros x e Hx _ _. exact Hx.
    + apply Forall_isort, Forall_forall. intros x Hx. apply Hpos, in_or_app.
      right. exact Hx.
    + apply Forall_forall. intros x Hx. apply Hpos, in_or_app. left. exact Hx.
Qed.

Lemma compaction_invents_no_entry_witness :
  let s := settled [1%Q; 2%Q; 3%Q] 1 3 6 in
  let extra := [mkEntry (Fin 5) 2 0; mkEntry (Fin 0) 1 0] in
  incoming s = [] /\
  entries (snd (merge_compress extra s))
  = [mkEntry (Fin 1) 2 0; mkEntry (Fin 3) 2 0; mkEntry (Fin 5) 2 0] /\
  (length (entries (snd (merge_compress extra s)))
   <= length (entries s) + length extra)%nat.
Proof.
  split; [reflexivity|]. split; [reflexivity|].
  apply (compaction_invents_no_entry
           (settled [1%Q; 2%Q; 3%Q] 1 3 6)
           [mkEntry (Fin 5) 2 0; mkEntry (Fin 0) 1 0]).
  reflexivity.
Defined.

(** X4.  A compaction of a sketch whose buffer is empty and whose entries
    are in ascending order loses no value upwards: every entry it was
    given, of the sketch or extra, has its value at or below the value of
    an entry it leaves. *)
Theorem compaction_covers_every_value :
  forall (s : GKArray) (extra : list Entry) (x : Entry),
    incoming s = [] -> ascending (entries s) = true ->
    In x (entries s ++ extra) ->
    exists y, In y (entries (snd (merge_compress extra s))) /\ le (val x) (val y).
Proof.
  intros s extra x H Hasc Hx. rewrite (entries_flushed extra s H).
  apply cover_merge_lists; [apply ascending_isort|exact Hasc|].
  apply in_app_or in Hx. apply in_or_app.
  destruct Hx as [Hx|Hx]; [left; exact Hx|right; apply In_isort; exact Hx].
Qed.

Lemma compaction_covers_every_value_witness :
  let s := settled [1%Q; 2%Q; 3%Q] 1 3 6 in
  let extra := [mkEntry (Fin 5) 2 0; mkEntry (Fin 0) 1 0] in
  let x := mkEntry (Fin 0) 1 0 in
  (incoming s = [] /\ ascending (entries s) = true /\ In x (entries s ++ extra)) /\
  exists y, In y (entries (snd (merge_compress extra s))) /\ le (val x) (val y).
Proof.
  split; [split; [reflexivity|split; [reflexivity|]]|].
  - simpl. right. right. right. right. left. reflexivity.
  - apply (compaction_covers_every_value
             (settled [1%Q; 2%Q; 3%Q] 1 3 6)
             [mkEntry (Fin 5) 2 0; mkEntry (Fin 0) 1 0]
             (mkEntry (Fin 0) 1 0)); [reflexivity|reflexivity|].
    simpl. right. right. right. right. left. reflexivity.
Defined.

(** X5.  The loop of the compaction ends within as many iterations as the
    two lists have elements together: further iterations change nothing
    of the list built. *)
Theorem sweep_ends_within_the_two_lengths :
  forall (fuel : nat) (t : Z) (inc ent merged : list Entry),
    (length inc + length ent <= fuel)%nat ->
    sweep_loop fuel t inc ent merged
    = sweep_loop (length inc + length ent) t inc ent merged.
Proof.
  intros fuel t inc ent merged H.
  rewrite (sweep_loop_merge_lists t fuel inc ent merged H).
  rewrite (sweep_loop_merge_lists t _ inc ent merged (Nat.le_refl _)).
  reflexivity.
Qed.

Lemma sweep_ends_within_the_two_lengths_witness :
  let inc := [mkEntry (Fin 1) 1 0; mkEntry (Fin 4) 1 0] in
  let ent := [mkEntry (Fin 2) 1 0; mkEntry (Fin 3) 1 0] in
  (length inc + length ent <= 9)%nat /\
  sweep_loop 9 2 inc ent [] = sweep_loop (length inc + length ent) 2 inc ent [].
Proof.
  split; [simpl; lia|].
  apply (sweep_ends_within_the_two_lengths 9 2
           [mkEntry (Fin 1) 1 0; mkEntry (Fin 4) 1 0]
           [mkEntry (Fin 2) 1 0; mkEntry (Fin 3) 1 0] []).
  simpl. lia.
Defined.

(** ** The band and the sketching size *)

Lemma removable_le (t : Z) (e e' : Entry) :
  removable t e e' = true -> g e + g e' + delta e' <= t.
Proof. unfold removable. apply Z.leb_le. Qed.

(** X6.  The loop of the compaction keeps the band of the summary for
    the threshold it is run with: if [g + delta] is at most a bound no
    less than that threshold at every incoming entry and at every entry
    of the sketch, it is at most that bound at every entry of the list
    built.  An entry that absorbs its predecessor has passed the test
    [g + g' + delta' <= threshold], and an incoming entry that is
    appended gets the [g + delta] of the entry it was compared with. *)
Theorem sweep_keeps_the_band :
  forall (threshold bound : Z) (inc ent : list Entry),
    threshold <= bound ->
    within_band bound inc -> within_band bound ent ->
    within_band bound
      (sweep_loop (length inc + length ent) threshold inc ent []).
Proof.
  intros t bound inc ent Ht Hinc Hent.
  rewrite (sweep_loop_merge_lists t _ inc ent [] (Nat.le_refl _)).
  cbn [app]. unfold within_band. apply kept_merge_lists.
  - intros e e' _ _ R. apply removable_le in R. unfold absorb. simpl. lia.
  - intros x e _ He _. simpl. lia.
  - exact Hinc.
  - exact Hent.
Qed.

(** X6 at the threshold 3 and the bound 3, for three entries of one value
    each that the loop merges into one. *)
Lemma sweep_keeps_the_band_witness :
  let ent := [mkEntry (Fin 1) 1 0; mkEntry (Fin 2) 1 0; mkEntry (Fin 3) 1 0] in
  (3 <= 3 /\ within_band 3 [] /\ within_band 3 ent) /\
  sweep_loop (length (@nil Entry) + length ent) 3 [] ent []
  = [mkEntry (Fin 3) 3 0] /\
  within_band 3 (sweep_loop (length (@nil Entry) + length ent) 3 [] ent []).
Proof.
  cbn zeta.
  assert (A : within_band 3 [mkEntry (Fin 1) 1 0; mkEntry (Fin 2) 1 0;
                             mkEntry (Fin 3) 1 0]).
  { repeat constructor; simpl; lia. }
  assert (B : within_band 3 []) by constructor.
  split; [split; [lia|split; [exact B|exact A]]|].
  split; [reflexivity|].
  apply (sweep_keeps_the_band 3 3 []
           [mkEntry (Fin 1) 1 0; mkEntry (Fin 2) 1 0; mkEntry (Fin 3) 1 0]);
    [lia|exact B|exact A].
Defined.

Lemma weighted_not_removable (t : Z) (e e' : Entry) :
  t <= 1 -> 1 <= g e -> 1 <= g e' /\ 0 <= delta e' -> removable t e e' = false.
Proof.
  intros Ht He [Hg Hd]. unfold removable. apply Z.leb_gt. lia.
Qed.

Lemma exact_compress_tail (t : Z) (rest : list Entry) :
  t <= 1 ->
  forall e, 1 <= g e -> weighted rest -> compress_tail t e rest = e :: rest.
Proof.
  intros Ht. induction rest as [|e' rest IH]; intros e He Hrest; [reflexivity|].
  inversion Hrest as [|? ? He' Hrest']; subst. cbn [compress_tail].
  rewrite (weighted_not_removable t e e' Ht He He').
  rewrite IH; [reflexivity|apply He'|exact Hrest'].
Qed.

Lemma exact_sweep (t : Z) (inc : list Entry) :
  t <= 1 ->
  forall e ent,
    weighted inc -> weighted (e :: ent) ->
    length (sweep t inc e ent) = (length inc + S (length ent))%nat.
Proof.
  intros Ht. induction inc as [|x inc IH]; intros e ent Hinc Hent.
  - inversion Hent as [|? ? He Hent']; subst. simpl.
    rewrite exact_compress_tail; [reflexivity|exact Ht|apply He|exact Hent'].
  - inversion Hinc as [|? ? Hx Hinc']; subst.
    revert e Hent. induction ent as [|e' ent IHent]; intros e Hent;
      inversion Hent as [|? ? He Hent']; subst;
      cbn [sweep]; destruct (ltb (val x) (val e)).
    + rewrite (weighted_not_removable t x e Ht (proj1 Hx) He).
      cbn [length]. rewrite IH; [simpl; lia|exact Hinc'|exact Hent].
    + rewrite exact_compress_tail; [simpl; lia|exact Ht|apply Hx|exact Hinc'].
    + rewrite (weighted_not_removable t x e Ht (proj1 Hx) He).
      cbn [length]. rewrite IH; [simpl; lia|exact Hinc'|exact Hent].
    + inversion Hent' as [|? ? He' Hent'']; subst.
      rewrite (weighted_not_removable t e e' Ht (proj1 He) He').
      cbn [length]. rewrite IHent; [simpl; lia|exact Hent'].
Qed.

Lemma threshold_below_the_sketching_size (s : GKArray) :
  (0 < eps s)%Q -> (countQ s < 1 / eps s)%Q -> removal_threshold s <= 1.
Proof.
  intros He Hn. unfold removal_threshold, np_floor.
  assert (A : (countQ s * eps s < 1)%Q).
  { setoid_replace 1%Q with (1 / eps s * eps s)%Q
      by (field; intros E; rewrite E in He; discriminate).
    apply Qmult_lt_r; assumption. }
  assert (B : (2 * eps s * inject_Z (count s - 1) < 2)%Q).
  { unfold Z.sub. rewrite inject_Z_plus. unfold countQ in A.
    setoid_replace (2 * eps s * (inject_Z (count s) + inject_Z (-1)))%Q
      with (2 * (inject_Z (count s) * eps s) - 2 * eps s)%Q
      by (simpl; ring).
    apply Qlt_le_trans with (2 * 1 - 2 * eps s)%Q.
    - apply Qplus_lt_l. apply Qmult_lt_l; [reflexivity|exact A].
    - setoid_replace (2 * 1 - 2 * eps s)%Q with (2 - 2 * eps s)%Q by ring.
      apply Qle_minus_iff.
      setoid_replace (2 + - (2 - 2 * eps s))%Q with (2 * eps s)%Q by ring.
      apply Qmult_le_0_compat; [discriminate|apply Qlt_le_weak; exact He]. }
  pose proof (Qfloor_le (2 * eps s * inject_Z (count s - 1))) as F.
  assert (C : (inject_Z (Qfloor (2 * eps s * inject_Z (count s - 1))) < inject_Z 2)%Q).
  { eapply Qle_lt_trans; [exact F|exact B]. }
  rewrite <- Zlt_Qlt in C. lia.
Qed.

(** X7.  Below the sketching size, where [quantile] asks the percentile
    routine, a compaction absorbs nothing: on a sketch with a positive
    precision, a count below [1/eps] and an empty buffer, whose entries
    and extra entries stand for at least one value each with a
    non-negative [delta], it leaves as many entries as it was given, and
    without extra entries it leaves the entries as they are. *)
Theorem compaction_below_the_sketching_size_absorbs_nothing :
  forall (s : GKArray) (extra : list Entry),
    incoming s = [] ->
    (0 < eps s)%Q -> (countQ s < 1 / eps s)%Q ->
    weighted (entries s) -> weighted extra ->
    length (entries (snd (merge_compress extra s)))
    = (length (entries s) + length extra)%nat /\
    (extra = [] -> entries (snd (merge_compress extra s)) = entries s).
Proof.
  intros s extra H He Hn Hent Hextra.
  pose proof (threshold_below_the_sketching_size s He Hn) as Ht.
  rewrite (entries_flushed extra s H).
  assert (Hsorted : weighted (isort extra)) by (apply Forall_isort; exact Hextra).
  split.
  - unfold merge_lists. destruct (entries s) as [|e ent].
    + rewrite <- (length_isort extra).
      destruct (isort extra) as [|x inc]; [reflexivity|].
      inversion Hsorted as [|? ? Hx Hinc]; subst.
      rewrite exact_compress_tail; [reflexivity|exact Ht|apply Hx|exact Hinc].
    + rewrite exact_sweep; [|exact Ht|exact Hsorted|exact Hent].
      rewrite length_isort. simpl. lia.
  - intros ->. simpl. unfold merge_lists. destruct (entries s) as [|e ent];
      [reflexivity|].
    inversion Hent as [|? ? Hx Hrest]; subst. simpl.
    apply exact_compress_tail; [exact Ht|apply Hx|exact Hrest].
Qed.

Lemma compaction_below_the_sketching_size_absorbs_nothing_witness :
  let s := mkGKArray (1 # 4) [mkEntry (Fin 1) 1 0; mkEntry (Fin 2) 1 0] []
                     (Fin 1) (Fin 2) 2 3 (3 # 2) in
  (incoming s = [] /\ (0 < eps s)%Q /\ (countQ s < 1 / eps s)%Q /\
   weighted (entries s)) /\
  entries (snd (merge_compress [] s)) = entries s.
Proof.
  assert (W : weighted [mkEntry (Fin 1) 1 0; mkEntry (Fin 2) 1 0]).
  { repeat constructor; simpl; lia. }
  split; [split; [reflexivity|split; [reflexivity|split; [reflexivity|exact W]]]|].
  apply (compaction_below_the_sketching_size_absorbs_nothing
           (mkGKArray (1 # 4) [mkEntry (Fin 1) 1 0; mkEntry (Fin 2) 1 0] []
                      (Fin 1) (Fin 2) 2 3 (3 # 2)) []);
    [reflexivity|reflexivity|reflexivity|exact W|constructor|reflexivity].
Defined.

(** ** Queries leave the sketch as it is *)

Section QueryFrame.

Variable percentile : list ext -> Q -> outcome number.

(** X8.  [size], [quantile] and [quantiles] never change the sketch,
    whether they return or raise: the compaction they start raises before
    it has written anything.  [size] returns the number of entries when
    the buffer is empty and raises AttributeError otherwise. *)
Theorem queries_never_change_the_sketch :
  forall s : GKArray,
    snd (size s) = s /\
    (forall q, snd (quantile percentile q s) = s) /\
    (forall qs, snd (quantiles percentile qs s) = s) /\
    (incoming s = [] -> fst (size s) = Ok (length (entries s))) /\
    (incoming s <> [] -> fst (size s) = Raise AttributeError).
Proof.
  intros s. split; [apply size_state|].
  split; [intros q; apply quantile_state|].
  split; [intros qs; apply quantiles_state|].
  split; intros H.
  - unfold size. run.
    destruct (flush_cases s) as [[_ E]|[E _]]; [rewrite E; reflexivity|contradiction].
  - rewrite (size_pending s H). reflexivity.
Qed.

End QueryFrame.

(** ** The state after a stream *)

Lemma ingest_cons (v : Q) (vs : list Q) (s : GKArray) :
  ingest (v :: vs) s = ingest vs (add_aggregates v s).
Proof. unfold ingest. simpl. rewrite add_state. reflexivity. Qed.

Lemma eps_add_aggregates (v : Q) (s : GKArray) : eps (add_aggregates v s) = eps s.
Proof. aggregates v s; reflexivity. Qed.

Lemma min_add_aggregates (v : Q) (s : GKArray) :
  _min (add_aggregates v s) = if ltb (Fin v) (_min s) then Fin v else _min s.
Proof.
  unfold add_aggregates; cbv zeta; fields.
  destruct (ltb (Fin v) (_min s)); fields;
    destruct (ltb (_max s) (Fin v)); reflexivity.
Qed.

Lemma max_add_aggregates (v : Q) (s : GKArray) :
  _max (add_aggregates v s) = if ltb (_max s) (Fin v) then Fin v else _max s.
Proof.
  unfold add_aggregates; cbv zeta; fields.
  destruct (ltb (Fin v) (_min s)); fields;
    destruct (ltb (_max s) (Fin v)); reflexivity.
Qed.

Lemma stream_state (vs : list Q) :
  forall s,
    incoming (ingest vs s) = incoming s ++ vs /\
    entries (ingest vs s) = entries s /\
    eps (ingest vs s) = eps s.
Proof.
  induction vs as [|v vs IH]; intros s.
  - simpl. rewrite app_nil_r. repeat split; reflexivity.
  - rewrite ingest_cons.
    destruct (IH (add_aggregates v s)) as (Hi & He & Hp).
    rewrite Hi, He, Hp.
    rewrite incoming_add_aggregates, entries_add_aggregates,
      eps_add_aggregates, <- app_assoc.
    repeat split; reflexivity.
Qed.

(** X9.  [add] never moves a value out of the buffer.  After a stream of
    values was passed to [add] of a sketch, one call each and whatever
    the calls raised, the count has grown by the number of values, the
    values stand at the end of the buffer in the order of the stream,
    and the entries and the precision are as before.  For a new sketch:
    [num_values] is the length of the stream, the buffer is the stream,
    and there is no entry. *)
Theorem stream_stays_in_the_buffer :
  (forall (s : GKArray) (vs : list Q),
      let s' := ingest vs s in
      num_values s' = (num_values s + length vs)%nat /\
      incoming s' = incoming s ++ vs /\
      entries s' = entries s /\
      eps s' = eps s) /\
  (forall (e : Q) (vs : list Q),
      let s' := ingest vs (init e) in
      num_values s' = length vs /\
      incoming s' = vs /\
      entries s' = [] /\
      eps s' = e).
Proof.
  split.
  - intros s vs s'. subst s'. unfold num_values.
    destruct (stream_state vs s) as (Hi & He & Hp).
    split; [apply n_ingest|]. split; [exact Hi|]. split; [exact He|exact Hp].
  - intros e vs s'. subst s'. unfold num_values.
    destruct (stream_state vs (init e)) as (Hi & He & Hp).
    split; [rewrite n_ingest; reflexivity|].
    split; [exact Hi|]. split; [exact He|exact Hp].
Qed.

Lemma extremes_add_aggregates (v : Q) (seen : list Q) (s : GKArray) :
  extremes_of seen (_min s) (_max s) ->
  extremes_of (seen ++ [v])
              (_min (add_aggregates v s)) (_max (add_aggregates v s)).
Proof.
  intros H. rewrite min_add_aggregates, max_add_aggregates.
  destruct seen as [|x seen].
  - destruct H as [-> ->]. simpl. split; exists v;
      (split; [reflexivity|split; [left; reflexivity|]]);
      intros y [<-|[]]; apply Qle_refl.
  - destruct H as [(lo & -> & Hlo & Hmin) (hi & -> & Hhi & Hmax)].
    change ((x :: seen) ++ [v]) with (x :: (seen ++ [v])).
    change (x :: (seen ++ [v])) with ((x :: seen) ++ [v]).
    split.
    + destruct (ltb (Fin v) (Fin lo)) eqn:L; simpl in L.
      * apply Qltb_lt in L. exists v. split; [reflexivity|].
        split; [apply in_or_app; right; left; reflexivity|].
        intros y Hy. apply in_app_or in Hy. destruct Hy as [Hy|[<-|[]]].
        -- apply Qlt_le_weak. eapply Qlt_le_trans; [exact L|apply Hmin, Hy].
        -- apply Qle_refl.
      * apply Qltb_ge in L. exists lo. split; [reflexivity|].
        split; [apply in_or_app; left; exact Hlo|].
        intros y Hy. apply in_app_or in Hy. destruct Hy as [Hy|[<-|[]]].
        -- apply Hmin, Hy.
        -- exact L.
    + destruct (ltb (Fin hi) (Fin v)) eqn:L; simpl in L.
      * apply Qltb_lt in L. exists v. split; [reflexivity|].
        split; [apply in_or_app; right; left; reflexivity|].
        intros y Hy. apply in_app_or in Hy. destruct Hy as [Hy|[<-|[]]].
        -- apply Qlt_le_weak. eapply Qle_lt_trans; [apply Hmax, Hy|exact L].
        -- apply Qle_refl.
      * apply Qltb_ge in L. exists hi. split; [reflexivity|].
        split; [apply in_or_app; left; exact Hhi|].
        intros y Hy. apply in_app_or in Hy. destruct Hy as [Hy|[<-|[]]].
        -- apply Hmax, Hy.
        -- exact L.
Qed.

Lemma extremes_ingest (vs : list Q) :
  forall seen s,
    extremes_of seen (_min s) (_max s) ->
    extremes_of (seen ++ vs) (_min (ingest vs s)) (_max (ingest vs s)).
Proof.
  induction vs as [|v vs IH]; intros seen s H.
  - rewrite app_nil_r. exact H.
  - rewrite ingest_cons.
    replace (seen ++ v :: vs) with ((seen ++ [v]) ++ vs)
      by (rewrite <- app_assoc; reflexivity).
    apply IH, extremes_add_aggregates, H.
Qed.

(** X10.  After a stream of values was passed to [add] of a new sketch,
    the minimum of the sketch is a value of the stream that no value is
    below and its maximum a value of the stream that no value is above;
    after an empty stream they are the infinities of [__init__]. *)
Theorem stream_extremes :
  forall (e : Q) (vs : list Q),
    extremes_of vs (_min (ingest vs (init e))) (_max (ingest vs (init e))).
Proof.
  intros e vs. apply (extremes_ingest vs [] (init e)). split; reflexivity.
Qed.

(** ** The outcome of add *)

(** C9, refuted by the code.  The claim is that [add] updates the
    aggregates and the buffer and that a compaction runs before it
    returns when the new count is a multiple of [floor(1/eps) + 1].
    [add(v)] does leave the count one higher, the minimum and the
    maximum covering [v] and [v] at the end of the buffer, and touches
    neither the entries nor the precision; but the compaction it starts
    at line 61 never runs to its end: on the state [add] has reached the
    buffer holds [v], a raw value, and [merge_compress] raises
    [AttributeError] and leaves everything in the buffer.  At the third value of a sketch
    of precision 0.5 the compaction is due ([3 % (int(1/0.5) + 1) == 0]):
    [add] raises and leaves the three values in the buffer and no entry,
    where the compaction of section 4.2 of the specification leaves two
    entries and an empty buffer. *)
Theorem add_starts_a_compaction_that_raises :
  (forall (s : GKArray) (v : Q),
      let s1 := snd (add v s) in
      _n s1 = S (_n s) /\
      _min s1 = (if ltb (Fin v) (_min s) then Fin v else _min s) /\
      le (_min s1) (Fin v) /\ le (_min s1) (_min s) /\
      _max s1 = (if ltb (_max s) (Fin v) then Fin v else _max s) /\
      le (Fin v) (_max s1) /\ le (_max s) (_max s1) /\
      incoming s1 = incoming s ++ [v] /\
      entries s1 = entries s /\
      eps s1 = eps s /\
      merge_compress [] s1 = (Raise AttributeError, s1)) /\
  (let s3 := snd (add 3 two_values) in
   period s3 = Ok 3 /\ count s3 mod 3 = 0 /\
   add 3 two_values = (Raise AttributeError, s3) /\
   incoming s3 = [1%Q; 2%Q; 3%Q] /\ entries s3 = [] /\
   fst (merge_compress_as_specified [] s3) = Ok tt /\
   entries (snd (merge_compress_as_specified [] s3))
   = [mkEntry (Fin 2) 2 0; mkEntry (Fin 3) 1 0] /\
   incoming (snd (merge_compress_as_specified [] s3)) = []).
Proof.
  split.
  - intros s v s1. subst s1. rewrite add_state.
    rewrite min_add_aggregates, max_add_aggregates, n_add_aggregates,
      incoming_add_aggregates, entries_add_aggregates, eps_add_aggregates.
    split; [lia|]. split; [reflexivity|].
    split.
    { destruct (ltb (Fin v) (_min s)) eqn:E;
        [apply ext_le_refl|apply ext_ltb_false_le; exact E]. }
    split.
    { destruct (ltb (Fin v) (_min s)) eqn:E;
        [apply ext_ltb_le; exact E|apply ext_le_refl]. }
    split; [reflexivity|].
    split.
    { destruct (ltb (_max s) (Fin v)) eqn:E;
        [apply ext_le_refl|apply ext_ltb_false_le; exact E]. }
    split.
    { destruct (ltb (_max s) (Fin v)) eqn:E;
        [apply ext_ltb_le; exact E|apply ext_le_refl]. }
    split; [reflexivity|]. split; [reflexivity|]. split; [reflexivity|].
    apply merge_compress_raw, incoming_add_aggregates_nonempty.
  - cbn zeta. repeat split; vm_compute; reflexivity.
Qed.

(** X11.  On a sketch of precision zero [add] raises ZeroDivisionError,
    at the division of line 60, and by then it has counted the value and
    put it in the buffer. *)
Theorem add_with_zero_precision_raises_after_counting :
  forall (s : GKArray) (v : Q),
    (eps s == 0)%Q ->
    fst (add v s) = Raise ZeroDivisionError /\
    _n (snd (add v s)) = S (_n s) /\
    incoming (snd (add v s)) = incoming s ++ [v].
Proof.
  intros s v E. split.
  - unfold add. run. unfold period, py_div.
    rewrite eps_add_aggregates.
    apply Qeq_bool_iff in E. rewrite E. reflexivity.
  - rewrite add_state, n_add_aggregates, incoming_add_aggregates.
    split; [lia|reflexivity].
Qed.

Lemma add_with_zero_precision_raises_after_counting_witness :
  (eps (init 0) == 0)%Q /\
  fst (add 1 (init 0)) = Raise ZeroDivisionError /\
  _n (snd (add 1 (init 0))) = 1%nat /\
  incoming (snd (add 1 (init 0))) = [1%Q].
Proof.
  split; [reflexivity|].
  apply (add_with_zero_precision_raises_after_counting (init 0) 1).
  reflexivity.
Defined.

(** ** The cases of merge *)

Lemma merge_compress_returns (extra : list Entry) (s : GKArray) :
  incoming s = [] -> merge_compress extra s = (Ok tt, flushed extra s).
Proof. apply merge_compress_flushed. Qed.

Lemma merge_compress_pending (extra : list Entry) (s : GKArray) (v : Q) (vs : list Q) :
  incoming s = v :: vs -> merge_compress extra s = (Raise AttributeError, s).
Proof. intros H. apply merge_compress_raw. rewrite H. discriminate. Qed.

(** What [merge] returns and leaves, case by case. *)
Lemma merge_cases (s o : GKArray) :
  Qeq_bool (eps s) (eps o) = true ->
  merge (s, o) =
  if (_n o =? 0)%nat then
    match incoming s with
    | [] => (Ok tt, (flushed [] s, o))
    | _ :: _ => (Raise AttributeError, (s, o))
    end
  else if (_n s =? 0)%nat then
    match incoming o with
    | [] => (Ok tt, (take_over (flushed [] o) s, flushed [] o))
    | _ :: _ => (Raise AttributeError, (s, o))
    end
  else
    match incoming o with
    | _ :: _ => (Raise AttributeError, (s, o))
    | [] =>
        match synthetic_entries (spread_of o) (flushed [] o) with
        | Raise e => (Raise e, (s, flushed [] o))
        | Ok extra =>
            match incoming s with
            | [] => (Ok tt, (flushed extra (widen (flushed [] o) s), flushed [] o))
            | _ :: _ =>
                (Raise AttributeError, (widen (flushed [] o) s, flushed [] o))
            end
        end
    end.
Proof.
  intros Heq. unfold merge. run. rewrite Heq. cbn [negb].
  destruct (_n o =? 0)%nat.
  - run. destruct (incoming s) as [|v vs] eqn:Hs.
    + rewrite (merge_compress_returns [] s Hs). reflexivity.
    + rewrite (merge_compress_pending [] s v vs Hs). reflexivity.
  - destruct (_n s =? 0)%nat; run.
    + destruct (incoming o) as [|v vs] eqn:Ho.
      * rewrite (merge_compress_returns [] o Ho). reflexivity.
      * rewrite (merge_compress_pending [] o v vs Ho). reflexivity.
    + destruct (incoming o) as [|v vs] eqn:Ho.
      * rewrite (merge_compress_returns [] o Ho). cbn [fst snd].
        fold (spread_of o).
        destruct (synthetic_entries (spread_of o) (flushed [] o)) as [extra|x];
          [|reflexivity].
        cbn [fst snd].
        assert (Hw : incoming (widen (flushed [] o) s) = incoming s) by reflexivity.
        destruct (incoming s) as [|w ws] eqn:Hs.
        -- rewrite (merge_compress_returns extra _ Hw). reflexivity.
        -- rewrite (merge_compress_pending extra _ w ws Hw). reflexivity.
      * rewrite (merge_compress_pending [] o v vs Ho). reflexivity.
Qed.

Lemma synthetic_entries_returns (spread : Z) (o : GKArray) :
  entries o <> [] -> exists extra, synthetic_entries spread o = Ok extra.
Proof.
  intros H. unfold synthetic_entries.
  remember (interior_entries (entries o)) as middle.
  destruct (entries o) as [|e rest]; [contradiction|].
  change (py_index (e :: rest) 0) with (Ok e). cbv beta iota.
  unfold py_index.
  destruct (nth_error (e :: rest) (length (e :: rest) - 1)) as [last|] eqn:L.
  - eexists. reflexivity.
  - apply nth_error_None in L. simpl in L. lia.
Qed.

Lemma synthetic_entries_empty (spread : Z) (o : GKArray) :
  entries o = [] -> synthetic_entries spread o = Raise IndexError.
Proof. intros H. unfold synthetic_entries. rewrite H. reflexivity. Qed.






Lemma sum_g_flushed (s : GKArray) :
  sum_g (entries (flushed [] s)) = sum_g (entries s).
Proof.
  unfold flushed. fields. rewrite sum_g_merge_lists. reflexivity.
Qed.

Lemma length_flushed (s : GKArray) :
  (length (entries (flushed [] s)) <= length (entries s))%nat.
Proof.
  unfold flushed. fields.
  apply (length_merge_lists (removal_threshold s) [] (entries s)).
Qed.

(** X14.  [merge] with an [other] that holds no value leaves [other] as
    it is and moves nothing into [self]: the precision, the count, the
    sum, the mean, the extremes and the buffer of [self] are as before,
    and so is the rank mass of its entries, which are compacted when the
    call returns. *)
Theorem merge_with_an_empty_sketch :
  forall s o : GKArray,
    (eps s == eps o)%Q -> _n o = 0%nat ->
    let s' := fst (snd (merge (s, o))) in
    snd (snd (merge (s, o))) = o /\
    merge (s, o) = (fst (merge_compress [] s), (snd (merge_compress [] s), o)) /\
    eps s' = eps s /\ _n s' = _n s /\ _sum s' = _sum s /\ _avg s' = _avg s /\
    _min s' = _min s /\ _max s' = _max s /\ incoming s' = incoming s /\
    sum_g (entries s') = sum_g (entries s) /\
    (length (entries s') <= length (entries s))%nat.
Proof.
  intros s o Heq Ho s'. subst s'.
  apply Qeq_bool_iff in Heq. rewrite (merge_cases s o Heq), Ho. cbn [Nat.eqb].
  destruct (incoming s) as [|v vs] eqn:E.
  - rewrite (merge_compress_returns [] s E). cbn [fst snd].
    rewrite sum_g_flushed. pose proof (length_flushed s) as L.
    unfold flushed in *. revert L. fields. intros L.
    repeat split; try reflexivity. exact L.
  - rewrite (merge_compress_pending [] s v vs E). cbn [fst snd].
    repeat split; try reflexivity. exact E.
Qed.

Lemma merge_with_an_empty_sketch_witness :
  let s := settled [1%Q; 2%Q; 3%Q] 1 3 6 in
  ((eps s == eps (init half))%Q /\ _n (init half) = 0%nat) /\
  snd (snd (merge (s, init half))) = init half /\
  entries (fst (snd (merge (s, init half))))
  = [mkEntry (Fin 2) 2 0; mkEntry (Fin 3) 1 0] /\
  sum_g (entries (fst (snd (merge (s, init half))))) = sum_g (entries s).
Proof.
  split; [split; reflexivity|].
  destruct (merge_with_an_empty_sketch (settled [1%Q; 2%Q; 3%Q] 1 3 6) (init half))
    as (H1 & _ & _ & _ & _ & _ & _ & _ & _ & H2 & _); try reflexivity.
  split; [exact H1|]. split; [reflexivity|exact H2].
Defined.

(** X15.  [merge] into a [self] that holds no value, from an [other]
    that holds values and has an empty buffer, returns; it compacts
    [other] and makes [self] a copy of it: [self] has the entries, the
    count, the sum, the mean and the extremes that [other] has after the
    call, in place of whatever entries it had; its precision and its
    buffer are as before. *)
Theorem merge_into_an_empty_sketch :
  forall s o : GKArray,
    (eps s == eps o)%Q -> _n s = 0%nat -> _n o <> 0%nat -> incoming o = [] ->
    let s' := fst (snd (merge (s, o))) in
    let o' := snd (snd (merge (s, o))) in
    fst (merge (s, o)) = Ok tt /\
    o' = snd (merge_compress [] o) /\
    entries s' = entries o' /\
    _n s' = _n o /\ _sum s' = _sum o /\ _avg s' = _avg o /\
    _min s' = _min o /\ _max s' = _max o /\
    eps s' = eps s /\ incoming s' = incoming s /\
    sum_g (entries s') = sum_g (entries o).
Proof.
  intros s o Heq Hs Ho Hio s' o'. subst s' o'.
  apply Qeq_bool_iff in Heq. rewrite (merge_cases s o Heq).
  apply Nat.eqb_neq in Ho. rewrite Ho, Hs, Hio. cbn [Nat.eqb fst snd].
  rewrite (merge_compress_returns [] o Hio). cbn [snd].
  unfold take_over. fields. rewrite map_copy_id, sum_g_flushed.
  repeat split; reflexivity.
Qed.

Lemma merge_into_an_empty_sketch_witness :
  ((eps (init half) == eps three_values)%Q /\ _n (init half) = 0%nat /\
   _n three_values <> 0%nat /\ incoming three_values = []) /\
  fst (merge (init half, three_values)) = Ok tt /\
  entries (fst (snd (merge (init half, three_values))))
  = entries (snd (snd (merge (init half, three_values)))) /\
  _n (fst (snd (merge (init half, three_values)))) = 3%nat.
Proof.
  split; [repeat split; try reflexivity; discriminate|].
  destruct (merge_into_an_empty_sketch (init half) three_values)
    as (H1 & _ & H2 & H3 & _); try reflexivity; [discriminate|].
  split; [exact H1|]. split; [exact H2|exact H3].
Defined.

Lemma other_after_merge (s o : GKArray) :
  snd (snd (merge (s, o))) = o \/
  (incoming o = [] /\ snd (snd (merge (s, o))) = flushed [] o).
Proof.
  destruct (Qeq_bool (eps s) (eps o)) eqn:Heq.
  - rewrite (merge_cases s o Heq).
    destruct (_n o =? 0)%nat; [destruct (incoming s); left; reflexivity|].
    destruct (_n s =? 0)%nat.
    + destruct (incoming o) eqn:E; [right|left]; repeat split; reflexivity.
    + destruct (incoming o) eqn:E; [right|left; reflexivity].
      destruct (synthetic_entries _ _); [destruct (incoming s)|];
        repeat split; reflexivity.
  - left. unfold merge. run. rewrite Heq. reflexivity.
Qed.

(** X16.  [merge] takes nothing away from [other]: whatever the two
    sketches are and whether the call returns or raises, the precision,
    the count, the sum, the mean, the extremes and the buffer of [other]
    are as before, its entries carry the same rank mass, and they are no
    more than before. *)
Theorem merge_leaves_the_values_of_other :
  forall s o : GKArray,
    let o' := snd (snd (merge (s, o))) in
    eps o' = eps o /\ _n o' = _n o /\ _sum o' = _sum o /\ _avg o' = _avg o /\
    _min o' = _min o /\ _max o' = _max o /\ incoming o' = incoming o /\
    sum_g (entries o') = sum_g (entries o) /\
    (length (entries o') <= length (entries o))%nat.
Proof.
  intros s o o'. subst o'.
  destruct (other_after_merge s o) as [->|[E ->]].
  - repeat split; reflexivity.
  - rewrite sum_g_flushed. pose proof (length_flushed o) as L.
    repeat split; try reflexivity; [symmetry; exact E|exact L].
Qed.

(** X17.  When [merge] of two sketches that both hold values returns,
    the count of [self] is the sum of the two counts, its minimum is the
    lesser and its maximum the greater of the two, its precision is as
    before and its buffer is empty. *)
Theorem merge_adds_the_counts_and_widens_the_extremes :
  forall s o : GKArray,
    _n s <> 0%nat -> _n o <> 0%nat -> fst (merge (s, o)) = Ok tt ->
    let s' := fst (snd (merge (s, o))) in
    _n s' = (_n s + _n o)%nat /\
    _min s' = py_min (_min s) (_min o) /\
    le (_min s') (_min s) /\ le (_min s') (_min o) /\
    _max s' = py_max (_max s) (_max o) /\
    le (_max s) (_max s') /\ le (_max o) (_max s') /\
    eps s' = eps s /\ incoming s' = [].
Proof.
  intros s o Hs Ho Hok s'. subst s'.
  destruct (Qeq_bool (eps s) (eps o)) eqn:Heq.
  2:{ revert Hok. unfold merge. run. rewrite Heq. discriminate. }
  revert Hok. rewrite (merge_cases s o Heq).
  apply Nat.eqb_neq in Hs, Ho. rewrite Hs, Ho.
  destruct (incoming o); [|discriminate].
  destruct (synthetic_entries _ _) as [extra|x]; [|discriminate].
  destruct (incoming s); [|discriminate].
  intros _. cbn [fst snd]. unfold flushed, widen. fields.
  assert (E : Qpy_max (eps s) (eps o) = eps s).
  { unfold Qpy_max. destruct (Qltb (eps s) (eps o)) eqn:L; [|reflexivity].
    apply Qltb_lt in L. apply Qeq_bool_iff in Heq. rewrite Heq in L.
    exfalso. revert L. apply Qlt_irrefl. }
  repeat split; try reflexivity; try exact E.
  - unfold py_min. destruct (ltb (_min o) (_min s)) eqn:L;
      [apply ext_ltb_le; exact L|apply ext_le_refl].
  - unfold py_min. destruct (ltb (_min o) (_min s)) eqn:L;
      [apply ext_le_refl|apply ext_ltb_false_le; exact L].
  - unfold py_max. destruct (ltb (_max s) (_max o)) eqn:L;
      [apply ext_ltb_le; exact L|apply ext_le_refl].
  - unfold py_max. destruct (ltb (_max s) (_max o)) eqn:L;
      [apply ext_le_refl|apply ext_ltb_false_le; exact L].
Qed.

Lemma merge_adds_the_counts_and_widens_the_extremes_witness :
  (_n one_value <> 0%nat /\ _n three_values <> 0%nat /\
   fst (merge (one_value, three_values)) = Ok tt) /\
  _n (fst (snd (merge (one_value, three_values)))) = 4%nat /\
  _min (fst (snd (merge (one_value, three_values)))) = Fin 0 /\
  _max (fst (snd (merge (one_value, three_values)))) = Fin 1000.
Proof.
  split; [repeat split; try reflexivity; discriminate|].
  destruct (merge_adds_the_counts_and_widens_the_extremes one_value three_values)
    as (H1 & H2 & _ & _ & H3 & _); try discriminate; try reflexivity.
  split; [exact H1|]. split; [exact H2|exact H3].
Defined.

(** ** Sketches built through the interface *)

Section Interface.

Variable percentile : list ext -> Q -> outcome number.


End Interface.


(** ** The compactions the interface starts *)

Section TriggeredCompactions.

Variable percentile : list ext -> Q -> outcome number.

(** C4, refuted by the code.  The claim is that after every compaction,
    whatever started it, the buffer is empty, the entries are sorted and
    the sum of [g] is the count.  On a sketch built through the
    interface that holds values, no compaction runs to its end.  The values are in the buffer and there
    is no entry, so the sum of [g] is 0 and not the count; the
    compaction, asked for directly or started by [size], [quantile],
    [quantiles], [add] or [merge], raises AttributeError at line 72 and
    leaves the buffer as it is: after it the buffer is not empty and the
    sum of [g] is not the count. *)
Theorem triggered_compaction_raises_and_flushes_nothing :
  forall s : GKArray,
    reachable percentile s -> _n s <> 0%nat ->
    incoming s <> [] /\ entries s = [] /\
    sum_g (entries s) <> count s /\ ~ compacted s /\
    merge_compress [] s = (Raise AttributeError, s) /\
    size s = (Raise AttributeError, s) /\
    (forall q, out_of_range q = false ->
               quantile percentile q s = (Raise AttributeError, s)) /\
    (forall qs, quantiles percentile qs s = (Raise AttributeError, s)) /\
    (forall v,
        let s1 := snd (add v s) in
        merge_compress [] s1 = (Raise AttributeError, s1) /\
        incoming s1 = incoming s ++ [v] /\ entries s1 = [] /\
        ~ compacted s1) /\
    (forall o, reachable percentile o -> (eps s == eps o)%Q ->
               merge (s, o) = (Raise AttributeError, (s, o)) /\
               merge (o, s) = (Raise AttributeError, (o, s))).
Proof.
  intros s R Hn.
  pose proof (reachable_buffered percentile s R) as B.
  pose proof (buffered_pending s B Hn) as P.
  destruct B as [Es Ls].
  split; [exact P|]. split; [exact Es|].
  split; [rewrite Es; unfold count; simpl; lia|].
  split; [intros (_ & Hin & _); contradiction|].
  split; [apply merge_compress_raw; exact P|].
  split; [apply size_pending; exact P|].
  split; [intros q Hq; apply quantile_pending; assumption|].
  split; [intros qs; apply quantiles_pending; assumption|].
  split.
  - intros v s1. subst s1. rewrite add_state.
    split; [apply merge_compress_raw, incoming_add_aggregates_nonempty|].
    split; [apply incoming_add_aggregates|].
    split; [rewrite entries_add_aggregates; exact Es|].
    intros (_ & Hin & _).
    apply (incoming_add_aggregates_nonempty v s Hin).
  - intros o Ro Heq.
    pose proof (reachable_buffered percentile o Ro) as Bo.
    assert (Heq' : (eps o == eps s)%Q) by (symmetry; exact Heq).
    apply Qeq_bool_iff in Heq, Heq'.
    rewrite (merge_cases s o Heq), (merge_cases o s Heq').
    apply Nat.eqb_neq in Hn. rewrite Hn.
    destruct (incoming s) as [|w ws]; [contradiction|].
    destruct (_n o =? 0)%nat eqn:No.
    + split; reflexivity.
    + apply Nat.eqb_neq in No. pose proof (buffered_pending o Bo No) as Po.
      destruct (incoming o) as [|u us]; [contradiction|].
      split; reflexivity.
Qed.

End TriggeredCompactions.

(** C4 at a sketch of precision 0.5 that holds two values, on which
    [size] raises; the third value makes the compaction of [add] due, and
    [add] raises. *)
Lemma triggered_compaction_raises_and_flushes_nothing_witness :
  (reachable linear_percentile two_values /\ _n two_values <> 0%nat) /\
  size two_values = (Raise AttributeError, two_values) /\
  incoming two_values = [1%Q; 2%Q] /\
  sum_g (entries two_values) = 0 /\ count two_values = 2 /\
  add 3 two_values = (Raise AttributeError, snd (add 3 two_values)).
Proof.
  assert (N : _n two_values <> 0%nat) by discriminate.
  split; [split; [apply reachable_two_values|exact N]|].
  destruct (triggered_compaction_raises_and_flushes_nothing linear_percentile
              two_values (reachable_two_values linear_percentile) N)
    as (_ & _ & _ & _ & _ & H & _).
  split; [exact H|]. repeat split; vm_compute; reflexivity.
Defined.

(** ** The answers of quantile and of quantiles *)



Lemma picked_of_the_sketch (ents : list Entry) :
  forall low i, picked low ents i = low \/
                exists e, In e ents /\ picked low ents i = val e.
Proof.
  induction ents as [|e rest IH]; intros low i.
  - left. destruct i; reflexivity.
  - destruct i as [|k]; [left; reflexivity|]. cbn [picked].
    destruct (IH (val e) k) as [->|(e' & He' & ->)].
    + right. exists e. split; [left; reflexivity|reflexivity].
    + right. exists e'. split; [right; exact He'|reflexivity].
Qed.

Section ScanAnswers.

Variable percentile : list ext -> Q -> outcome number.


End ScanAnswers.


(** *** One pass over the entries for a sorted batch *)





(** *** A batch the test of line 206 takes for sorted *)







Section Batches.

Variable percentile : list ext -> Q -> outcome number.




End Batches.


(** ** The entries that stand for the other sketch *)

Lemma interior_entries_of (ents : list Entry) :
  (forall x, In x (interior_entries ents) ->
             0 < g x /\ delta x = 0 /\ exists e, In e ents /\ val x = val e) /\
  (length (interior_entries ents) <= length ents - 1)%nat.
Proof.
  induction ents as [|e rest IH]; [split; [intros x []|simpl; lia]|].
  destruct rest as [|e' rest]; [split; [intros x []|simpl; lia]|].
  rewrite interior_entries_cons. destruct IH as [IH1 IH2].
  remember (interior_entries (e' :: rest)) as middle. split.
  - intros x Hx. apply in_app_or in Hx. destruct Hx as [Hx|Hx].
    + destruct (0 <? g e' + delta e' - delta e) eqn:L; [|destruct Hx].
      destruct Hx as [<-|[]]. apply Z.ltb_lt in L. cbn [g delta val].
      split; [exact L|]. split; [reflexivity|].
      exists e. split; [left; reflexivity|reflexivity].
    + destruct (IH1 x Hx) as (Hg & Hd & e0 & He0 & Hv).
      split; [exact Hg|]. split; [exact Hd|].
      exists e0. split; [right; exact He0|exact Hv].
  - rewrite length_app. cbn [length] in *.
    destruct (0 <? g e' + delta e' - delta e); cbn [length]; lia.
Qed.

(** X21.  The entries that [merge] builds to stand for [other]: building
    them raises IndexError when [other] has no entry; otherwise each of
    them has a positive [g], a [delta] of zero and for its value the
    minimum of [other] or the value of an entry of [other], there is at
    most one more of them than [other] has entries, and together they
    carry at least the rank mass of the entries of [other]. *)
Theorem synthetic_entries_stand_for_other :
  forall (spread : Z) (o : GKArray),
    (entries o = [] -> synthetic_entries spread o = Raise IndexError) /\
    (entries o <> [] ->
     exists extra,
       synthetic_entries spread o = Ok extra /\
       (forall x, In x extra ->
                  0 < g x /\ delta x = 0 /\
                  (val x = _min o \/ exists e, In e (entries o) /\ val x = val e)) /\
       (length extra <= length (entries o) + 1)%nat /\
       sum_g (entries o) <= sum_g extra).
Proof.
  intros spread o. split; [apply synthetic_entries_empty|]. intros Hne.
  destruct (synthetic_entries_returns spread o Hne) as [extra E].
  exists extra. split; [exact E|].
  split; [|split; [|apply (synthetic_entries_mass spread o extra E)]];
    revert E; unfold synthetic_entries;
    destruct (interior_entries_of (entries o)) as [Hmid Hlen];
    remember (interior_entries (entries o)) as middle eqn:Hmiddle;
    destruct (entries o) as [|e rest] eqn:Ents; try contradiction;
    change (py_index (e :: rest) 0) with (Ok e); cbv beta iota;
    destruct (py_index (e :: rest) (length (e :: rest) - 1)) as [last|x0] eqn:L;
    try discriminate; intros [= <-].
  - assert (Hlast : In last (e :: rest)).
    { unfold py_index in L.
      destruct (nth_error (e :: rest) (length (e :: rest) - 1)) eqn:N;
        [|discriminate].
      injection L as <-. eapply nth_error_In. exact N. }
    intros x Hx. apply in_app_or in Hx. destruct Hx as [Hx|Hx].
    + destruct (0 <? g e + delta e - spread - 1) eqn:G; [|destruct Hx].
      destruct Hx as [<-|[]]. apply Z.ltb_lt in G. cbn [g delta val].
      split; [exact G|]. split; [reflexivity|left; reflexivity].
    + apply in_app_or in Hx. destruct Hx as [Hx|Hx].
      * destruct (Hmid x Hx) as (Hg & Hd & e0 & He0 & Hv).
        split; [exact Hg|]. split; [exact Hd|]. right. exists e0. split; assumption.
      * destruct (0 <? spread + 1 - delta last) eqn:G; [|destruct Hx].
        destruct Hx as [<-|[]]. apply Z.ltb_lt in G. cbn [g delta val].
        split; [exact G|]. split; [reflexivity|]. right.
        exists last. split; [exact Hlast|reflexivity].
  - rewrite !length_app. cbn [length] in *.
    destruct (0 <? g e + delta e - spread - 1);
      destruct (0 <? spread + 1 - delta last); cbn [length]; lia.
Qed.

(** ** A sketch merged into itself *)




(** ** The outcome of quantile *)

Section QuantileOutcome.

Variable percentile : list ext -> Q -> outcome number.

(** X23.  What [quantile(q)] gives, leaving the sketch as it is: NaN
    when [q] is outside [0, 1] or the sketch holds no value; otherwise
    AttributeError when the buffer holds values, ZeroDivisionError when
    the buffer is empty and [eps] is zero, and, when the buffer is empty
    and [eps] is in (0, 1], either what the percentile routine gives on
    the values of the entries or the minimum or the value of an entry.
    Indexing the entries at the end of the scan never raises. *)
Theorem quantile_raises_or_answers_from_the_sketch :
  forall (s : GKArray) (q : Q),
    snd (quantile percentile q s) = s /\
    (out_of_range q = true \/ _n s = 0%nat ->
     fst (quantile percentile q s) = Ok NaN) /\
    (out_of_range q = false -> _n s <> 0%nat ->
     (incoming s <> [] ->
      fst (quantile percentile q s) = Raise AttributeError) /\
     (incoming s = [] -> (eps s == 0)%Q ->
      fst (quantile percentile q s) = Raise ZeroDivisionError) /\
     (incoming s = [] -> (0 < eps s)%Q -> (eps s <= 1)%Q ->
      (exists p, fst (quantile percentile q s)
                 = percentile (map val (entries s)) p) \/
      (exists x, fst (quantile percentile q s) = Ok (Num x) /\
                 (x = _min s \/ exists e, In e (entries s) /\ x = val e)))).
Proof.
  intros s q. split; [apply quantile_state|]. split.
  - intros H. unfold quantile. run.
    destruct H as [-> | ->]; [reflexivity|].
    rewrite orb_true_r. reflexivity.
  - intros Hq Hn. split; [|split].
    + intros Hin. rewrite (quantile_pending percentile q s Hq Hn Hin). reflexivity.
    + intros Hin He. unfold quantile. run.
      pose proof Hn as Hn'. apply Nat.eqb_neq in Hn'. rewrite Hq, Hn'. cbn [orb].
      destruct (flush_cases s) as [[_ E]|[E _]]; [|contradiction].
      rewrite E. unfold py_div. apply Qeq_bool_iff in He. rewrite He. reflexivity.
    + intros Hin Hpos _.
      assert (Hdiv : py_div 1 (eps s) = Ok (1 / eps s)%Q).
      { unfold py_div. destruct (Qeq_bool (eps s) 0) eqn:E; trivial.
        apply Qeq_bool_iff in E. rewrite E in Hpos. discriminate. }
      destruct (Qltb (countQ s) (1 / eps s)) eqn:Hsize.
      * left. eexists.
        rewrite (quantile_small percentile q s _ Hq Hn Hin Hdiv Hsize).
        reflexivity.
      * right. eexists.
        rewrite (quantile_scan percentile q s _ Hq Hn Hin Hdiv Hsize).
        split; [reflexivity|]. apply picked_of_the_sketch.
Qed.

End QuantileOutcome.
